(** * email-service: a shallow embedding of the send path

    The development follows the two TypeScript modules of the service:

    - [services/emailService.ts]: [replaceVariables], [validateRecipient]
      and [sendEmail];
    - [routes/email.ts]: [validateEmailRequest] and [sendEmailHandler].

    JavaScript strings are sequences of UTF-16 code units, so a string is
    a [list N] here.  Effects (the logger, the construction of the SMTP
    client, the calls of [sendAsync], thrown values) are threaded through
    a small trace-and-exception monad. *)

From Stdlib Require Import List NArith ZArith QArith Ascii String Lia.
From Stdlib Require DecimalString DecimalNat DecimalFacts.
From stdpp Require Import base list strings gmap.

Local Open Scope N_scope.

(** ** JavaScript strings *)

Module JsString.

Abbreviation code_unit := N.
Abbreviation jsstring := (list code_unit).

(** A source literal, written as a Rocq string of ASCII characters. *)
Definition js (s : string) : jsstring :=
  map N_of_ascii (list_ascii_of_string s).

(** The class [\s] of ECMAScript: WhiteSpace and LineTerminator. *)
Definition is_space (c : code_unit) : bool :=
  ((9 <=? c) && (c <=? 13))          (* \t \n \v \f \r *)
  || (c =? 32)                       (* space *)
  || (c =? 160)                      (* U+00A0 *)
  || (c =? 5760)                     (* U+1680 *)
  || ((8192 <=? c) && (c <=? 8202))  (* U+2000 .. U+200A *)
  || (c =? 8232) || (c =? 8233)      (* U+2028, U+2029 *)
  || (c =? 8239)                     (* U+202F *)
  || (c =? 8287)                     (* U+205F *)
  || (c =? 12288)                    (* U+3000 *)
  || (c =? 65279).                   (* U+FEFF *)

Definition ch_at : code_unit := 64.       (* @ *)
Definition ch_dot : code_unit := 46.      (* . *)
Definition ch_dollar : code_unit := 36.   (* $ *)
Definition ch_amp : code_unit := 38.      (* & *)
Definition ch_backtick : code_unit := 96. (* ` *)
Definition ch_quote : code_unit := 39.    (* ' *)
Definition ch_lt : code_unit := 60.       (* < *)
Definition ch_gt : code_unit := 62.       (* > *)
Definition ch_lbracket : code_unit := 91. (* [ *)

(** [String.prototype.trim]: strips [\s] at both ends. *)
Fixpoint trimStart (s : jsstring) : jsstring :=
  match s with
  | c :: s' => if is_space c then trimStart s' else s
  | [] => []
  end.

Definition trim (s : jsstring) : jsstring :=
  rev (trimStart (rev (trimStart s))).

(** Canonicalize of a regular expression with the [i] flag and without
    the [u] flag.  Only ASCII pattern characters occur in this program;
    a code unit above 127 never canonicalizes to an ASCII one, so
    comparing canonical forms against an ASCII pattern character is
    exact with the ASCII upper-casing below. *)
Definition canonicalize (c : code_unit) : code_unit :=
  if (97 <=? c) && (c <=? 122) then c - 32 else c.

Definition eq_i (p c : code_unit) : bool :=
  canonicalize p =? canonicalize c.

(** Does the literal [pat] match, ignoring case, at the head of [s]?
    Returns what follows the match. *)
Fixpoint match_lit_i (pat s : jsstring) : option jsstring :=
  match pat, s with
  | [], _ => Some s
  | p :: pat', c :: s' => if eq_i p c then match_lit_i pat' s' else None
  | _ :: _, [] => None
  end.

(** Is there a case-insensitive occurrence of [pat] somewhere in [s]? *)
Fixpoint occurs_i (pat s : jsstring) : bool :=
  match match_lit_i pat s with
  | Some _ => true
  | None => match s with
            | [] => false
            | _ :: s' => occurs_i pat s'
            end
  end.

(** GetSubstitution for a pattern without capture groups: [$$] is a
    dollar, [$&] the matched text, [$`] the text before the match,
    [$'] the text after it; [$n] and [$<] have nothing to refer to and
    stay as they are, like a dollar followed by anything else. *)
Fixpoint GetSubstitution (matched before after repl : jsstring) : jsstring :=
  match repl with
  | [] => []
  | c :: rest =>
      if c =? ch_dollar then
        match rest with
        | d :: rest' =>
            if d =? ch_dollar then
              ch_dollar :: GetSubstitution matched before after rest'
            else if d =? ch_amp then
              matched ++ GetSubstitution matched before after rest'
            else if d =? ch_backtick then
              before ++ GetSubstitution matched before after rest'
            else if d =? ch_quote then
              after ++ GetSubstitution matched before after rest'
            else ch_dollar :: GetSubstitution matched before after rest
        | [] => [ch_dollar]
        end
      else c :: GetSubstitution matched before after rest
  end.

(** [s.replace(/pat/gi, repl)] for a literal, non-empty [pat].  The scan
    goes left to right over the original string; [before] is the part
    already passed and [skip] the number of code units of the current
    match still to pass (the distance to nextSourcePosition). *)
Fixpoint replace_scan (pat repl before : jsstring) (skip : nat)
    (s : jsstring) : jsstring :=
  match s with
  | [] => []
  | c :: s' =>
      match skip with
      | S k => replace_scan pat repl (before ++ [c]) k s'
      | O =>
          match match_lit_i pat s with
          | Some after =>
              GetSubstitution (take (length pat) s) before after repl
                ++ replace_scan pat repl (before ++ [c]) (length pat - 1) s'
          | None => c :: replace_scan pat repl (before ++ [c]) 0 s'
          end
      end
  end.

Definition replace_gi (pat repl s : jsstring) : jsstring :=
  replace_scan pat repl [] 0 s.

(** [s.replace(/<[^>]*>/g, '')]: a match starts at a [<] that has a [>]
    somewhere after it and runs to the first such [>]. *)
Fixpoint strip_scan (inside : bool) (s : jsstring) : jsstring :=
  match s with
  | [] => []
  | c :: s' =>
      if inside then strip_scan (negb (c =? ch_gt)) s'
      else if (c =? ch_lt) && existsb (N.eqb ch_gt) s'
           then strip_scan true s'
           else c :: strip_scan false s'
  end.

Definition stripTags (s : jsstring) : jsstring := strip_scan false s.

(** [String(n)] for a non-negative integer. *)
Definition Number_toString (n : nat) : jsstring :=
  js (DecimalString.NilEmpty.string_of_uint (Nat.to_uint n)).

(** [s.includes(sub)], case-sensitive. *)
Fixpoint starts_with (sub s : jsstring) : bool :=
  match sub, s with
  | [], _ => true
  | p :: sub', c :: s' => (p =? c) && starts_with sub' s'
  | _ :: _, [] => false
  end.

Fixpoint includes (s sub : jsstring) : bool :=
  starts_with sub s ||
  match s with
  | [] => false
  | _ :: s' => includes s' sub
  end.

End JsString.
Import JsString.

(** ** Regular expressions used with [test] *)

Module RegExp.

Inductive regex : Type :=
| Void
| Eps
| Class (f : code_unit -> bool)
| Seq (r1 r2 : regex)
| Alt (r1 r2 : regex)
| Star (r : regex).

(** [r+] *)
Definition Plus (r : regex) : regex := Seq r (Star r).

Fixpoint nullable (r : regex) : bool :=
  match r with
  | Void => false
  | Eps => true
  | Class _ => false
  | Seq r1 r2 => nullable r1 && nullable r2
  | Alt r1 r2 => nullable r1 || nullable r2
  | Star _ => true
  end.

Fixpoint deriv (c : code_unit) (r : regex) : regex :=
  match r with
  | Void => Void
  | Eps => Void
  | Class f => if f c then Eps else Void
  | Seq r1 r2 =>
      if nullable r1 then Alt (Seq (deriv c r1) r2) (deriv c r2)
      else Seq (deriv c r1) r2
  | Alt r1 r2 => Alt (deriv c r1) (deriv c r2)
  | Star r1 => Seq (deriv c r1) (Star r1)
  end.

(** [/^r$/.test(s)]: the whole of [s] is matched by [r]. *)
Fixpoint test_anchored (r : regex) (s : jsstring) : bool :=
  match s with
  | [] => nullable r
  | c :: s' => test_anchored (deriv c r) s'
  end.

(** The language of a regular expression. *)
Inductive Lang : regex -> jsstring -> Prop :=
| L_eps : Lang Eps []
| L_class f c : f c = true -> Lang (Class f) [c]
| L_seq r1 r2 s1 s2 :
    Lang r1 s1 -> Lang r2 s2 -> Lang (Seq r1 r2) (s1 ++ s2)
| L_alt_l r1 r2 s : Lang r1 s -> Lang (Alt r1 r2) s
| L_alt_r r1 r2 s : Lang r2 s -> Lang (Alt r1 r2) s
| L_star_nil r : Lang (Star r) []
| L_star_cons r s1 s2 :
    Lang r s1 -> Lang (Star r) s2 -> Lang (Star r) (s1 ++ s2).

End RegExp.

(** ** Effects: a trace of observable actions, and thrown values *)

Module Effects.

Inductive Level := info | warn | error.

(** Options handed to [new SMTPClient]. *)
Record ClientOptions := {
  opt_host : jsstring;
  opt_port : Q;
  opt_user : jsstring;
  opt_password : jsstring;
  opt_ssl : bool;
  opt_timeout : N;
  opt_tls_rejectUnauthorized : bool
}.

(** One element of the [attachment] array of a message. *)
Record Attachment := {
  data : jsstring;
  alternative : bool
}.

(** The argument of [client.sendAsync]. *)
Record Message := {
  msg_from : jsstring;
  msg_to : jsstring;
  msg_subject : jsstring;
  msg_text : jsstring;
  msg_attachment : list Attachment
}.

(** What the program does to the outside, in order.  The metadata
    object of a log call is not kept, only its level and message. *)
Inductive Event :=
| Log (l : Level) (text : jsstring)
| NewSMTPClient (o : ClientOptions)
| SendAsync (m : Message).

(** A thrown value: an [Error] with its message, or anything else. *)
Inductive Thrown :=
| Error (message : jsstring)
| NonError.

Inductive Result (A : Type) :=
| Return (a : A)
| Throw (e : Thrown).
Arguments Return {A} a.
Arguments Throw {A} e.

(** The SMTP server as the client sees it: given the messages already
    handed to [sendAsync] and the current one, the promise resolves
    ([None]) or rejects with a value. *)
Definition SmtpServer := list Message -> Message -> option Thrown.

(** [process.env] *)
Abbreviation Env := (gmap string jsstring).

Definition M (A : Type) : Type := list Event -> list Event * Result A.

Definition ret {A} (a : A) : M A := fun tr => (tr, Return a).

Definition bind {A B} (m : M A) (k : A -> M B) : M B :=
  fun tr =>
    match m tr with
    | (tr', Return a) => k a tr'
    | (tr', Throw e) => (tr', Throw e)
    end.

Definition throw {A} (e : Thrown) : M A := fun tr => (tr, Throw e).

Definition try_catch {A} (m : M A) (handler : Thrown -> M A) : M A :=
  fun tr =>
    match m tr with
    | (tr', Return a) => (tr', Return a)
    | (tr', Throw e) => handler e tr'
    end.

Definition emit (e : Event) : M unit := fun tr => (tr ++ [e], Return tt).

Definition log (l : Level) (text : string) : M unit :=
  emit (Log l (js text)).

Definition sent_messages (tr : list Event) : list Message :=
  omap (fun e => match e with SendAsync m => Some m | _ => None end) tr.

Definition clients_created (tr : list Event) : list ClientOptions :=
  omap (fun e => match e with NewSMTPClient o => Some o | _ => None end) tr.

Definition new_SMTPClient (o : ClientOptions) : M unit :=
  emit (NewSMTPClient o).

Definition sendAsync (smtp : SmtpServer) (m : Message) : M unit :=
  fun tr =>
    match smtp (sent_messages tr) m with
    | None => (tr ++ [SendAsync m], Return tt)
    | Some e => (tr ++ [SendAsync m], Throw e)
    end.

Definition when (b : bool) (m : M unit) : M unit :=
  if b then m else ret tt.

Definition run {A} (m : M A) : list Event * Result A := m [].

End Effects.
Import Effects.

Declare Scope js_scope.
Delimit Scope js_scope with js.
Notation "x <- m ;; k" := (bind m (fun x => k))
  (at level 100, m at next level, right associativity) : js_scope.
Notation "m ;; k" := (bind m (fun _ => k))
  (at level 100, right associativity) : js_scope.

(** ** services/emailService.ts *)

Module EmailService.

Record SmtpConfig := {
  host : jsstring;
  port : Q;
  user : jsstring;
  password : jsstring;
  secure : bool;
  fromEmail : jsstring;
  fromName : jsstring
}.

Record EmailRecipient := {
  email : jsstring;
  firstName : option jsstring;
  lastName : option jsstring;
  company : option jsstring
}.

Record EmailParams := {
  to : list EmailRecipient;
  subject : jsstring;
  html : jsstring;
  smtp : SmtpConfig
}.

(** [x || ''] for an optional string: [undefined] and the empty string
    are both falsy. *)
Definition or_empty (x : option jsstring) : jsstring :=
  match x with
  | Some s => s
  | None => []
  end.

Definition replaceVariables (text : jsstring) (recipient : EmailRecipient)
    : jsstring :=
  replace_gi (js "[company]") (or_empty (company recipient))
    (replace_gi (js "[email]") (email recipient)
       (replace_gi (js "[last_name]") (or_empty (lastName recipient))
          (replace_gi (js "[first_name]") (or_empty (firstName recipient))
             text))).

(** The class [[^\s@]]. *)
Definition not_space_at (c : code_unit) : bool :=
  negb (is_space c || (c =? ch_at)).

Definition is_char (x : code_unit) (c : code_unit) : bool := c =? x.

(** [/^[^\s@]+@[^\s@]+\.[^\s@]+$/] *)
Definition emailRegex : RegExp.regex :=
  RegExp.Seq (RegExp.Plus (RegExp.Class not_space_at))
    (RegExp.Seq (RegExp.Class (is_char ch_at))
       (RegExp.Seq (RegExp.Plus (RegExp.Class not_space_at))
          (RegExp.Seq (RegExp.Class (is_char ch_dot))
             (RegExp.Plus (RegExp.Class not_space_at))))).

Definition validateRecipient (recipient : EmailRecipient) : bool :=
  RegExp.test_anchored emailRegex (email recipient).

(** The two [filter] calls that open [sendEmail]. *)
Definition validRecipients (to : list EmailRecipient) : list EmailRecipient :=
  List.filter validateRecipient to.

Definition invalidRecipients (to : list EmailRecipient) : list EmailRecipient :=
  List.filter (fun r => negb (validateRecipient r)) to.

Section SendEmail.
Variable env : Env.
Variable server : SmtpServer.
Local Open Scope js_scope.

Definition clientOptions (smtp : SmtpConfig) : ClientOptions :=
  {| opt_host := host smtp;
     opt_port := port smtp;
     opt_user := user smtp;
     opt_password := password smtp;
     opt_ssl := secure smtp;
     opt_timeout := 30000;
     opt_tls_rejectUnauthorized :=
       bool_decide (env !! "NODE_ENV"%string = Some (js "production")) |}.

Definition personalizedMessage (subject html : jsstring)
    (smtp : SmtpConfig) (recipient : EmailRecipient) : Message :=
  let personalizedSubject := replaceVariables subject recipient in
  let personalizedHtml := replaceVariables html recipient in
  let plainText := stripTags personalizedHtml in
  {| msg_from := fromName smtp ++ js " <" ++ fromEmail smtp ++ js ">";
     msg_to := email recipient;
     msg_subject := personalizedSubject;
     msg_text := plainText;
     msg_attachment :=
       [ {| data := personalizedHtml; alternative := true |} ] |}.

(** The body of the [for ... of validRecipients] loop. *)
Fixpoint send_loop (subject html : jsstring) (smtp : SmtpConfig)
    (recipients : list EmailRecipient) : M unit :=
  match recipients with
  | [] => ret tt
  | recipient :: rest =>
      log info "Sending email" ;;
      sendAsync server (personalizedMessage subject html smtp recipient) ;;
      log info "Email sent successfully" ;;
      send_loop subject html smtp rest
  end.

Definition sendEmail (params : EmailParams) : M unit :=
  log info "Initializing email send operation" ;;
  let validRecipients := validRecipients (to params) in
  let invalidRecipients := invalidRecipients (to params) in
  when (0 <? length invalidRecipients)%nat
       (log warn "Invalid recipients found") ;;
  if (length validRecipients =? 0)%nat then
    log error "Email send failed - no valid recipients" ;;
    throw (Error (js "No valid recipients provided"))
  else
    new_SMTPClient (clientOptions (smtp params)) ;;
    try_catch
      (send_loop (subject params) (html params) (smtp params)
         validRecipients)
      (fun err => log error "Email send failed" ;; throw err).

End SendEmail.

End EmailService.

(** ** routes/email.ts *)

Module Routes.

(** [SmtpConfigValidation] *)
Record SmtpConfigValidation := {
  host : jsstring;
  port : Q;
  username : jsstring;
  password : jsstring;
  secure : bool;
  fromEmail : jsstring;
  fromName : jsstring
}.

(** [EmailRequestBody] *)
Record EmailRequestBody := {
  recipients : list EmailService.EmailRecipient;
  subject : jsstring;
  body : jsstring;
  smtpConfig : SmtpConfigValidation
}.

(** The parsed JSON body before validation, as far as the checks of
    [validateEmailRequest] look at it.  [None] stands for a value that
    is absent or of another type than the one the check asks for; the
    fields of the SMTP object are absent ([None]) or present at their
    declared type, except [port], which may be present and not a
    number.  The elements of [recipients] are taken at the declared type
    of the array: a [null] element, on which reading [email] throws a
    TypeError, is not a value of this type. *)
Record RawSmtpConfig := {
  raw_host : option jsstring;
  raw_port : option (option Q);  (* present?, then: a number? *)
  raw_username : option jsstring;
  raw_password : option jsstring;
  raw_secure : option bool;
  raw_fromEmail : option jsstring;
  raw_fromName : option jsstring
}.

Record RawBody := {
  raw_recipients : option (list EmailService.EmailRecipient);
  raw_subject : option jsstring;
  raw_body : option jsstring;
  raw_smtpConfig : option RawSmtpConfig
}.

Record Response := {
  status : N;
  success : bool;
  message : jsstring;
  error_detail : option jsstring
}.

Local Open Scope js_scope.

(** The first of the required SMTP fields that is not in the object. *)
Definition missing_field (c : RawSmtpConfig) : option string :=
  if negb (bool_decide (is_Some (raw_host c))) then Some "host"%string
  else if negb (bool_decide (is_Some (raw_port c))) then Some "port"%string
  else if negb (bool_decide (is_Some (raw_username c))) then Some "username"%string
  else if negb (bool_decide (is_Some (raw_password c))) then Some "password"%string
  else if negb (bool_decide (is_Some (raw_secure c))) then Some "secure"%string
  else if negb (bool_decide (is_Some (raw_fromEmail c))) then Some "fromEmail"%string
  else if negb (bool_decide (is_Some (raw_fromName c))) then Some "fromName"%string
  else None.

Definition is_blank (s : jsstring) : bool :=
  (length (trim s) =? 0)%nat.

(** A type guard: on success the body is seen at its declared type. *)
Definition validateEmailRequest (b : RawBody) : M EmailRequestBody :=
  match raw_recipients b with
  | Some (r :: rs) =>
    match raw_subject b with
    | Some subj =>
      if is_blank subj then throw (Error (js "Subject is required")) else
      match raw_body b with
      | Some emailBody =>
        if is_blank emailBody then throw (Error (js "Email body is required")) else
        match raw_smtpConfig b with
        | Some c =>
          match missing_field c with
          | Some field =>
              throw (Error (js "Missing required SMTP field: " ++ js field))
          | None =>
            match c with
            | {| raw_host := Some h; raw_port := Some (Some p);
                 raw_username := Some u; raw_password := Some pw;
                 raw_secure := Some sec; raw_fromEmail := Some fe;
                 raw_fromName := Some fn |} =>
                if Qle_bool p 0 then
                  throw (Error (js "SMTP port must be a positive number"))
                else
                  ret {| recipients := r :: rs; subject := subj;
                         body := emailBody;
                         smtpConfig :=
                           {| host := h; port := p; username := u;
                              password := pw; secure := sec;
                              fromEmail := fe; fromName := fn |} |}
            | _ =>
                (* no field is missing here: the port is not a number *)
                throw (Error (js "SMTP port must be a positive number"))
            end
          end
        | None => throw (Error (js "SMTP configuration is required"))
        end
      | None => throw (Error (js "Email body is required"))
      end
    | None => throw (Error (js "Subject is required"))
    end
  | _ => throw (Error (js "Recipients must be a non-empty array"))
  end.

Section Handler.
Variable env : Env.
Variable server : SmtpServer.

Definition isValidationError (message : jsstring) : bool :=
  includes message (js "required")
  || includes message (js "must be")
  || includes message (js "Missing").

(** The object handed to [sendEmail]. *)
Definition emailParams (b : EmailRequestBody) : EmailService.EmailParams :=
  {| EmailService.to := recipients b;
     EmailService.subject := subject b;
     EmailService.html := body b;
     EmailService.smtp :=
       {| EmailService.host := host (smtpConfig b);
          EmailService.port := port (smtpConfig b);
          EmailService.user := username (smtpConfig b);
          EmailService.password := password (smtpConfig b);
          EmailService.secure := secure (smtpConfig b);
          EmailService.fromEmail := fromEmail (smtpConfig b);
          EmailService.fromName := fromName (smtpConfig b) |} |}.

(** [res.json] of the [try] block; the status stays at its default. *)
Definition successResponse (b : EmailRequestBody) : Response :=
  {| status := 200;
     success := true;
     message :=
       js "Email sent successfully to "
       ++ Number_toString (length (recipients b))
       ++ js " recipient(s)";
     error_detail := None |}.

(** The [catch] block. *)
Definition errorResponse (err : Thrown) : M Response :=
  match err with
  | Error msg =>
      log error "Email send request failed" ;;
      ret {| status := if isValidationError msg then 400 else 500;
             success := false;
             message :=
               if isValidationError msg then msg
               else js "Failed to send email";
             error_detail :=
               if bool_decide
                    (env !! "NODE_ENV"%string = Some (js "development"))
               then Some msg else None |}
  | NonError =>
      log error "Unknown error in email send request" ;;
      ret {| status := 500;
             success := false;
             message := js "An unexpected error occurred";
             error_detail := None |}
  end.

Definition sendEmailHandler (req_body : RawBody) : M Response :=
  try_catch
    (log info "Received email send request" ;;
     b <- validateEmailRequest req_body ;;
     EmailService.sendEmail env server (emailParams b) ;;
     log info "Email send request completed" ;;
     ret (successResponse b))
    errorResponse.

End Handler.

End Routes.

(** ** Further built-ins of the language, used by the server set-up *)

Module JsBuiltins.

Definition ch_comma : code_unit := 44.  (* , *)
Definition ch_minus : code_unit := 45.  (* - *)
Definition ch_plus : code_unit := 43.   (* + *)

(** The first piece of [s.split(sep)] and the pieces after it, for a
    separator of one code unit. *)
Fixpoint split_pieces (sep : code_unit) (s : jsstring)
    : jsstring * list jsstring :=
  match s with
  | [] => ([], [])
  | c :: s' =>
      let (piece, pieces) := split_pieces sep s' in
      if c =? sep then ([], piece :: pieces) else (c :: piece, pieces)
  end.

(** [s.split(sep)]: never an empty array. *)
Definition split (sep : code_unit) (s : jsstring) : list jsstring :=
  let (piece, pieces) := split_pieces sep s in piece :: pieces.

(** [pieces.join(sep)] *)
Fixpoint join (sep : code_unit) (pieces : list jsstring) : jsstring :=
  match pieces with
  | [] => []
  | [piece] => piece
  | piece :: rest => piece ++ sep :: join sep rest
  end.

(** [x || d] for an optional string. *)
Definition or_default (x : option jsstring) (d : jsstring) : jsstring :=
  match x with
  | Some (c :: s) => c :: s
  | _ => d
  end.

Definition is_digit (c : code_unit) : bool := (48 <=? c) && (c <=? 57).

(** The decimal digits at the head of a string, as numbers. *)
Fixpoint leading_digits (s : jsstring) : list N :=
  match s with
  | c :: s' => if is_digit c then (c - 48) :: leading_digits s' else []
  | [] => []
  end.

Definition digits_value (ds : list N) : N :=
  fold_left (fun acc d => 10 * acc + d) ds 0.

(** [parseInt(s, 10)]: white space is skipped, a sign is read, then the
    longest run of digits; [None] is NaN.  This is the signed integer the
    digits denote, before the conversion to a Number: the two are the same
    up to 2^53 in absolute value.  Above that the code gets a rounded
    double, which this function does not give; the properties below use
    it within that range only. *)
Definition parseInt10 (s : jsstring) : option Z :=
  let s1 := trimStart s in
  let (negative, s2) :=
    match s1 with
    | c :: rest =>
        if c =? ch_minus then (true, rest)
        else if c =? ch_plus then (false, rest)
        else (false, s1)
    | [] => (false, s1)
    end in
  match leading_digits s2 with
  | [] => None
  | ds => Some (if negative then - Z.of_N (digits_value ds)
                else Z.of_N (digits_value ds))%Z
  end.

End JsBuiltins.
Import JsBuiltins.

(** ** index.ts: the set-up of the server read from the environment *)

Module Server.

Section Config.
Variable env : Env.
Local Open Scope js_scope.

(** [process.env.CORS_ORIGIN || 'http://localhost:5173'] *)
Definition corsOrigin : jsstring :=
  or_default (env !! "CORS_ORIGIN"%string) (js "http://localhost:5173").

(** [corsOrigin.split(',').map(o => o.trim())] *)
Definition allowedOrigins : list jsstring :=
  map trim (split ch_comma corsOrigin).

(** The [origin] function of [corsOptions]: [callback(null, true)] is a
    return, [callback(new Error(...))] a throw.  [origin] is the Origin
    header of the request, [None] when there is none. *)
Definition originCallback (origin : option jsstring) : M unit :=
  log info "CORS Request" ;;
  match origin with
  | Some (c :: o) =>
      if bool_decide (c :: o ∈ allowedOrigins) then ret tt
      else throw (Error (js "Origin " ++ (c :: o) ++ js " not allowed by CORS"))
  | _ => ret tt
  end.

(** [parseInt(process.env.RATE_LIMIT_WINDOW_MS || '900000', 10)] *)
Definition rateLimitWindowMs : option Z :=
  parseInt10 (or_default (env !! "RATE_LIMIT_WINDOW_MS"%string) (js "900000")).

(** [parseInt(process.env.RATE_LIMIT_MAX_REQUESTS || '100', 10)] *)
Definition rateLimitMaxRequests : option Z :=
  parseInt10 (or_default (env !! "RATE_LIMIT_MAX_REQUESTS"%string) (js "100")).

End Config.

End Server.

(** ** Sample data used in the examples below *)

Module Examples.
Import EmailService.
Local Open Scope string_scope.

Definition recipient (e : string) (f l c : option string) : EmailRecipient :=
  {| email := js e;
     firstName := js <$> f;
     lastName := js <$> l;
     company := js <$> c |}.

Definition ann : EmailRecipient :=
  recipient "a@x.com" (Some "Ann") None None.

(** An address whose local part spells the company token. *)
Definition token_address : EmailRecipient :=
  recipient "[company]@x.com" None None (Some "Acme").



Definition smtp_config : SmtpConfig :=
  {| host := js "smtp.x.com"; port := 587; user := js "mailer";
     password := js "secret"; secure := true;
     fromEmail := js "noreply@x.com"; fromName := js "Mailer" |}.

Definition bob : EmailRecipient := recipient "b@x.com" (Some "Bob") None None.
Definition cy : EmailRecipient := recipient "c@x.com" (Some "Cy") None None.
Definition malformed : EmailRecipient := recipient "not-an-email" None None None.

(** Three valid recipients. *)
Definition batch_of_three : EmailParams :=
  {| to := [ann; bob; cy];
     subject := js "Hi [first_name]";
     html := js "<p>Hello [first_name]</p>";
     smtp := smtp_config |}.

(** A server that accepts every message. *)
Definition accept_all : SmtpServer := fun _ _ => None.

(** A server that rejects the messages for one mailbox and accepts the
    others, whatever was sent before. *)
Definition reject_mailbox (address : string) (e : Thrown) : SmtpServer :=
  fun _ m => if bool_decide (msg_to m = js address) then Some e else None.

Definition mailbox_unavailable : Thrown :=
  Error (js "550 5.1.1 mailbox unavailable").

Definition authentication_required : Thrown :=
  Error (js "530 5.7.0 Authentication required").

(** [process.env] with nothing set. *)
Definition env_unset : Env := ∅.

(** [process.env] after loading the repository's [.env.example]. *)
Definition env_example : Env :=
  <["PORT" := js "3001"]>
  (<["NODE_ENV" := js "development"]>
  (<["CORS_ORIGIN" := js "http://localhost:5173"]>
  (<["LOG_LEVEL" := js "info"]>
  (<["RATE_LIMIT_WINDOW_MS" := js "900000"]>
  (<["RATE_LIMIT_MAX_REQUESTS" := js "100"]>
  (<["TLS_REJECT_UNAUTHORIZED" := js "true"]> ∅)))))).

Definition env_production : Env := <["NODE_ENV" := js "production"]> ∅.

Definition raw_smtp : Routes.RawSmtpConfig :=
  {| Routes.raw_host := Some (js "smtp.x.com");
     Routes.raw_port := Some (Some 587%Q);
     Routes.raw_username := Some (js "mailer");
     Routes.raw_password := Some (js "secret");
     Routes.raw_secure := Some true;
     Routes.raw_fromEmail := Some (js "noreply@x.com");
     Routes.raw_fromName := Some (js "Mailer") |}.

Definition request (rs : list EmailRecipient) : Routes.RawBody :=
  {| Routes.raw_recipients := Some rs;
     Routes.raw_subject := Some (js "Hi [first_name]");
     Routes.raw_body := Some (js "Hello [first_name] at [company]");
     Routes.raw_smtpConfig := Some raw_smtp |}.

(** One valid and one malformed recipient. *)
Definition mixed_request : Routes.RawBody := request [ann; malformed].

(** Only malformed recipients. *)
Definition malformed_request : Routes.RawBody := request [malformed].

End Examples.

(** ** Vocabulary for templates *)

Module Template.
Import EmailService.

(** The four tokens, in the order in which [replaceVariables] treats
    them. *)
Inductive token := first_name | last_name | email_token | company_token.

Definition token_text (k : token) : jsstring :=
  match k with
  | first_name => js "[first_name]"
  | last_name => js "[last_name]"
  | email_token => js "[email]"
  | company_token => js "[company]"
  end.

(** The replacement value [replaceVariables] passes for a token. *)
Definition token_value (r : EmailRecipient) (k : token) : jsstring :=
  match k with
  | first_name => or_empty (firstName r)
  | last_name => or_empty (lastName r)
  | email_token => email r
  | company_token => or_empty (company r)
  end.

Definition token_eqb (k1 k2 : token) : bool :=
  match k1, k2 with
  | first_name, first_name | last_name, last_name
  | email_token, email_token | company_token, company_token => true
  | _, _ => false
  end.

(** A template cut into pieces: text, and tokens as they are spelled. *)
Inductive segment :=
| Text (s : jsstring)
| Token (k : token) (spelling : jsstring).

(** Text has no opening bracket; a token is spelled like its text up to
    letter case. *)
Definition segment_ok (g : segment) : Prop :=
  match g with
  | Text s => ~ In ch_lbracket s
  | Token k spelling => match_lit_i (token_text k) spelling = Some []
  end.

Fixpoint template_of (segs : list segment) : jsstring :=
  match segs with
  | [] => []
  | Text s :: rest => s ++ template_of rest
  | Token _ spelling :: rest => spelling ++ template_of rest
  end.

(** The template with every token replaced by the recipient's field. *)
Fixpoint rendered (r : EmailRecipient) (segs : list segment) : jsstring :=
  match segs with
  | [] => []
  | Text s :: rest => s ++ rendered r rest
  | Token k _ :: rest => token_value r k ++ rendered r rest
  end.

(** One pass seen on the pieces: the tokens [k0] become the text [v]. *)
Definition pass_segment (k0 : token) (v : jsstring) (g : segment) : segment :=
  match g with
  | Text s => Text s
  | Token k spelling => if token_eqb k k0 then Text v else Token k spelling
  end.

End Template.

(** ** Vocabulary for the outcome of a batch *)

Module Delivery.

(** The first [k] messages of [msgs] are accepted one after the other by a
    server that has already seen [hist]. *)
Definition accepted (server : SmtpServer) (hist msgs : list Message)
    (k : nat) : Prop :=
  forall j m, (j < k)%nat -> msgs !! j = Some m ->
    server (hist ++ take j msgs) m = None.

(** Message number [k] of [msgs] is rejected with [e]. *)
Definition rejected_at (server : SmtpServer) (hist msgs : list Message)
    (k : nat) (e : Thrown) : Prop :=
  exists m, msgs !! k = Some m /\ server (hist ++ take k msgs) m = Some e.

(** The messages [sendEmail] builds for the valid recipients, in order. *)
Definition batch_messages (params : EmailService.EmailParams) : list Message :=
  map (EmailService.personalizedMessage
         (EmailService.subject params) (EmailService.html params)
         (EmailService.smtp params))
      (EmailService.validRecipients (EmailService.to params)).

(** The trace of [sendEmail] before it looks at the valid recipients. *)
Definition prologue (to : list EmailService.EmailRecipient) : list Event :=
  [Log info (js "Initializing email send operation")]
  ++ (if (0 <? length (EmailService.invalidRecipients to))%nat
      then [Log warn (js "Invalid recipients found")] else []).

End Delivery.

(** ** Vocabulary for the further properties *)

Module Vocabulary.

(** A complete tag is left in [s]: a [<] with a [>] somewhere after it. *)
Fixpoint has_tag (s : jsstring) : bool :=
  match s with
  | [] => false
  | c :: s' => ((c =? ch_lt) && existsb (N.eqb ch_gt) s') || has_tag s'
  end.

(** The first and the last code unit of [s] are not white space. *)
Definition trimmed (s : jsstring) : Prop :=
  (forall c s', s = c :: s' -> is_space c = false)
  /\ (forall c s', s = s' ++ [c] -> is_space c = false).

(** The last event of a trace is a log entry at level [error]. *)
Definition ends_with_error_log (tr : list Event) : Prop :=
  exists tr' text, tr = tr' ++ [Log error text].

(** No log entry of a trace is at level [error]. *)
Definition no_error_log (tr : list Event) : Prop :=
  forall text, ~ In (Log error text) tr.

End Vocabulary.

(** * Properties *)

(** ** The derivative matcher decides the language of an expression *)

Module RegExpFacts.
Import RegExp.

Lemma nullable_Lang r : nullable r = true <-> Lang r [].
Proof.
  split.
  - induction r; simpl; intros H; try discriminate.
    + constructor.
    + apply andb_true_iff in H as [H1 H2].
      change (@nil code_unit) with (@nil code_unit ++ []).
      constructor; auto.
    + apply orb_true_iff in H as [H|H];
        [apply L_alt_l | apply L_alt_r]; auto.
    + constructor.
  - intros H. remember [] as s eqn:Es.
    induction H; simpl; subst; try discriminate; auto.
    + apply app_eq_nil in Es as [-> ->].
      rewrite IHLang1, IHLang2; auto.
    + rewrite IHLang; auto.
    + rewrite IHLang; auto using orb_true_r.
Qed.

Lemma deriv_sound c r : forall s, Lang (deriv c r) s -> Lang r (c :: s).
Proof.
  induction r; simpl; intros s H.
  - inversion H.
  - inversion H.
  - destruct (f c) eqn:Ef; inversion H; subst. now constructor.
  - destruct (nullable r1) eqn:En.
    + inversion H; subst.
      * match goal with
        | [ H' : Lang (Seq _ _) _ |- _ ] => inversion H'; subst
        end.
        change (c :: s1 ++ s2) with ((c :: s1) ++ s2).
        constructor; auto.
      * change (c :: s) with ([] ++ c :: s).
        constructor; auto. now apply nullable_Lang.
    + inversion H; subst.
      change (c :: s1 ++ s2) with ((c :: s1) ++ s2).
      constructor; auto.
  - inversion H; subst; [apply L_alt_l | apply L_alt_r]; auto.
  - inversion H; subst.
    change (c :: s1 ++ s2) with ((c :: s1) ++ s2).
    constructor; auto.
Qed.

Lemma deriv_complete c r w :
  Lang r w -> forall t, w = c :: t -> Lang (deriv c r) t.
Proof.
  induction 1; intros t Ew; simpl.
  - discriminate.
  - injection Ew as -> <-. rewrite H. constructor.
  - destruct s1 as [|c1 s1].
    + simpl in Ew. subst s2.
      apply nullable_Lang in H. rewrite H.
      apply L_alt_r. now apply IHLang2.
    + injection Ew as -> <-.
      destruct (nullable r1);
        [apply L_alt_l|]; constructor; auto.
  - apply L_alt_l; auto.
  - apply L_alt_r; auto.
  - discriminate.
  - destruct s1 as [|c1 s1].
    + simpl in Ew. now apply IHLang2.
    + injection Ew as -> <-. constructor; auto.
Qed.

Lemma test_anchored_Lang s : forall r, test_anchored r s = true <-> Lang r s.
Proof.
  induction s as [|c s IH]; intros r; simpl.
  - apply nullable_Lang.
  - rewrite IH. split.
    + apply deriv_sound.
    + intros H. now apply (deriv_complete c r (c :: s)).
Qed.

Lemma Lang_star_class f s :
  Lang (Star (Class f)) s <-> Forall (fun c => f c = true) s.
Proof.
  split.
  - intros H. remember (Star (Class f)) as r eqn:Er.
    induction H; try discriminate.
    + constructor.
    + injection Er as ->.
      apply Forall_app. split; auto.
      inversion H; subst. repeat constructor; auto.
  - induction 1 as [|c s Hc _ IH].
    + constructor.
    + change (c :: s) with ([c] ++ s). constructor; auto.
      now constructor.
Qed.

Lemma Lang_plus_class f s :
  Lang (Plus (Class f)) s <-> s <> [] /\ Forall (fun c => f c = true) s.
Proof.
  unfold Plus. split.
  - intros H. inversion H; subst.
    match goal with
    | [ H1 : Lang (Class _) _ |- _ ] => inversion H1; subst
    end.
    split; [discriminate|].
    constructor; auto. now apply Lang_star_class.
  - intros [Hne Hall]. destruct s as [|c s]; [congruence|].
    apply Forall_cons in Hall as [Hc Hs].
    change (c :: s) with ([c] ++ s).
    constructor; [now constructor | now apply Lang_star_class].
Qed.

Lemma Lang_char x s : Lang (Class (EmailService.is_char x)) s <-> s = [x].
Proof.
  split.
  - intros H. inversion H; subst.
    unfold EmailService.is_char in *. f_equal. now apply N.eqb_eq.
  - intros ->. constructor. apply N.eqb_refl.
Qed.

Lemma Lang_seq r1 r2 s :
  Lang (Seq r1 r2) s <-> exists s1 s2, s = s1 ++ s2 /\ Lang r1 s1 /\ Lang r2 s2.
Proof.
  split.
  - intros H. inversion H; subst. eauto.
  - intros (s1 & s2 & -> & H1 & H2). now constructor.
Qed.

End RegExpFacts.

(** ** Recipient validation and partition *)

Module ValidatorFacts.
Import RegExp RegExpFacts EmailService.

Lemma not_space_at_iff c :
  not_space_at c = true <-> is_space c = false /\ c <> ch_at.
Proof.
  unfold not_space_at. rewrite negb_true_iff, orb_false_iff, N.eqb_neq.
  tauto.
Qed.

Lemma count_occ_at_cons c (s : jsstring) :
  count_occ N.eq_dec (c :: s) ch_at
  = ((if N.eq_dec c ch_at then 1 else 0) + count_occ N.eq_dec s ch_at)%nat.
Proof. simpl. destruct (N.eq_dec c ch_at); reflexivity. Qed.

Lemma Forall_not_space_at (s : jsstring) :
  Forall (fun c => not_space_at c = true) s
  <-> Forall (fun c => is_space c = false) s
      /\ count_occ N.eq_dec s ch_at = 0%nat.
Proof.
  induction s as [|c s IH].
  - simpl. split; auto.
  - rewrite !Forall_cons, IH, not_space_at_iff, count_occ_at_cons.
    destruct (N.eq_dec c ch_at) as [E|E]; split.
    + intros [[_ H] _]. contradiction.
    + intros [_ H]. discriminate.
    + tauto.
    + simpl. tauto.
Qed.

(** The strings matched by the expression of [validateRecipient]. *)
Lemma emailRegex_Lang s :
  Lang emailRegex s <->
  exists L D T,
    s = L ++ ch_at :: D ++ ch_dot :: T
    /\ (L <> [] /\ Forall (fun c => not_space_at c = true) L)
    /\ (D <> [] /\ Forall (fun c => not_space_at c = true) D)
    /\ (T <> [] /\ Forall (fun c => not_space_at c = true) T).
Proof.
  unfold emailRegex. split.
  - intros H.
    apply Lang_seq in H as (L & s1 & -> & HL & H).
    apply Lang_seq in H as (a & s2 & -> & Ha & H).
    apply Lang_seq in H as (D & s3 & -> & HD & H).
    apply Lang_seq in H as (d & T & -> & Hd & HT).
    apply Lang_char in Ha as ->. apply Lang_char in Hd as ->.
    apply Lang_plus_class in HL, HD, HT.
    exists L, D, T. simpl. auto.
  - intros (L & D & T & -> & HL & HD & HT).
    apply Lang_plus_class in HL, HD, HT.
    apply Lang_seq. exists L, (ch_at :: D ++ ch_dot :: T).
    repeat split; auto.
    apply Lang_seq. exists [ch_at], (D ++ ch_dot :: T).
    repeat split; [now apply Lang_char|].
    apply Lang_seq. exists D, (ch_dot :: T).
    repeat split; auto.
    apply Lang_seq. exists [ch_dot], T.
    repeat split; auto. now apply Lang_char.
Qed.

Lemma is_space_dot : is_space ch_dot = false.
Proof. reflexivity. Qed.

Lemma is_space_at : is_space ch_at = false.
Proof. reflexivity. Qed.

(** C7: an address is accepted exactly when it has no white space,
    exactly one [@], and a [.] after the [@] with a non-empty segment
    before the [@], between the [@] and that [.], and after that [.]. *)
Theorem validateRecipient_shape (r : EmailRecipient) :
  validateRecipient r = true <->
  Forall (fun c => is_space c = false) (email r)
  /\ count_occ N.eq_dec (email r) ch_at = 1%nat
  /\ exists L D T,
       email r = L ++ ch_at :: D ++ ch_dot :: T
       /\ L <> [] /\ D <> [] /\ T <> [].
Proof.
  unfold validateRecipient.
  rewrite test_anchored_Lang, emailRegex_Lang. split.
  - intros (L & D & T & E & [HL FL] & [HD FD] & [HT FT]).
    apply Forall_not_space_at in FL as [SL CL].
    apply Forall_not_space_at in FD as [SD CD].
    apply Forall_not_space_at in FT as [ST CT].
    rewrite E. repeat split.
    + apply Forall_app. split; [assumption|].
      constructor; [apply is_space_at|].
      apply Forall_app. split; [assumption|].
      constructor; [apply is_space_dot | assumption].
    + rewrite count_occ_app, count_occ_at_cons, count_occ_app,
        count_occ_at_cons, CL, CD, CT.
      reflexivity.
    + exists L, D, T. auto.
  - intros (Hs & Hc & L & D & T & E & HL & HD & HT).
    exists L, D, T. rewrite E in Hs, Hc.
    apply Forall_app in Hs as [SL Hs].
    apply Forall_cons in Hs as [_ Hs].
    apply Forall_app in Hs as [SD Hs].
    apply Forall_cons in Hs as [_ ST].
    rewrite count_occ_app, count_occ_at_cons, count_occ_app,
      count_occ_at_cons in Hc.
    simpl in Hc.
    repeat split; auto; apply Forall_not_space_at; split; auto; lia.
Qed.

Lemma filter_sublist {A} (f : A -> bool) (l : list A) :
  sublist (List.filter f l) l.
Proof.
  induction l as [|x l IH]; simpl.
  - constructor.
  - destruct (f x); now constructor.
Qed.

Lemma validRecipients_In to r :
  In r (validRecipients to) <-> In r to /\ validateRecipient r = true.
Proof. apply filter_In. Qed.

Lemma invalidRecipients_In to r :
  In r (invalidRecipients to) <-> In r to /\ validateRecipient r = false.
Proof.
  unfold invalidRecipients. rewrite filter_In, negb_true_iff. tauto.
Qed.

Lemma partition_lengths to :
  (length (validRecipients to) + length (invalidRecipients to))%nat
  = length to.
Proof.
  unfold validRecipients, invalidRecipients.
  induction to as [|r to IH]; simpl; [reflexivity|].
  destruct (validateRecipient r); simpl; lia.
Qed.

(** C6: the partition into valid and invalid recipients loses and
    duplicates nothing: the two lengths add up to the length of the
    input, every input recipient is in exactly one of the two lists, and
    each list keeps the order of the input (it is a subsequence). *)
Theorem partition_total_stable (to : list EmailRecipient) :
  (length (validRecipients to) + length (invalidRecipients to))%nat
    = length to
  /\ (forall r, In r to ->
        (In r (validRecipients to) /\ ~ In r (invalidRecipients to))
        \/ (In r (invalidRecipients to) /\ ~ In r (validRecipients to)))
  /\ sublist (validRecipients to) to
  /\ sublist (invalidRecipients to) to.
Proof.
  repeat split.
  - apply partition_lengths.
  - intros r Hin.
    rewrite validRecipients_In, invalidRecipients_In.
    destruct (validateRecipient r); [left | right];
      (split; [auto | intros [_ ?]; discriminate]).
  - apply filter_sublist.
  - apply filter_sublist.
Qed.

End ValidatorFacts.


(** ** Template rendering *)

Module RendererFacts.
Import EmailService.

Lemma replace_scan_cons_0 pat repl before c s :
  replace_scan pat repl before 0 (c :: s) =
  match match_lit_i pat (c :: s) with
  | Some after =>
      GetSubstitution (take (length pat) (c :: s)) before after repl
        ++ replace_scan pat repl (before ++ [c]) (length pat - 1) s
  | None => c :: replace_scan pat repl (before ++ [c]) 0 s
  end.
Proof. reflexivity. Qed.

Lemma occurs_i_cons pat c s :
  occurs_i pat (c :: s) =
  match match_lit_i pat (c :: s) with
  | Some _ => true
  | None => occurs_i pat s
  end.
Proof. reflexivity. Qed.

(** A pass whose token does not occur leaves the string as it is. *)
Lemma replace_scan_no_occurrence pat repl s :
  forall before,
    occurs_i pat s = false -> replace_scan pat repl before 0 s = s.
Proof.
  induction s as [|c s IH]; intros before H; [reflexivity|].
  rewrite occurs_i_cons in H. rewrite replace_scan_cons_0.
  destruct (match_lit_i pat (c :: s)); [discriminate|].
  f_equal. now apply IH.
Qed.

Lemma replace_gi_no_occurrence pat repl s :
  occurs_i pat s = false -> replace_gi pat repl s = s.
Proof. apply replace_scan_no_occurrence. Qed.

Lemma replace_scan_skip_all pat repl s :
  forall before k, (length s <= k)%nat -> replace_scan pat repl before k s = [].
Proof.
  induction s as [|c s IH]; intros before k H; [reflexivity|].
  simpl in H. destruct k as [|k]; [lia|].
  simpl. apply IH. lia.
Qed.

Lemma match_lit_i_length pat :
  forall s rest,
    match_lit_i pat s = Some rest -> length s = (length pat + length rest)%nat.
Proof.
  induction pat as [|p pat IH]; intros s rest H; simpl in H.
  - now injection H as ->.
  - destruct s as [|c s]; [discriminate|].
    destruct (eq_i p c); [|discriminate].
    simpl. f_equal. now apply IH.
Qed.

(** A string that is the token, up to letter case, is replaced whole. *)
Lemma replace_gi_exact pat repl tok :
  pat <> [] ->
  match_lit_i pat tok = Some [] ->
  replace_gi pat repl tok = GetSubstitution tok [] [] repl.
Proof.
  intros Hpat Hm.
  pose proof (match_lit_i_length _ _ _ Hm) as Hlen.
  rewrite Nat.add_0_r in Hlen.
  destruct tok as [|c s].
  - destruct pat; [congruence | discriminate].
  - unfold replace_gi. rewrite replace_scan_cons_0, Hm.
    rewrite replace_scan_skip_all by (simpl in Hlen; lia).
    rewrite app_nil_r, <- Hlen. now rewrite firstn_all.
Qed.

(** A replacement text without a dollar sign is inserted as it is. *)
Lemma GetSubstitution_plain matched before after repl :
  ~ In ch_dollar repl ->
  GetSubstitution matched before after repl = repl.
Proof.
  induction repl as [|c repl IH]; intros H; [reflexivity|].
  simpl. destruct (N.eqb_spec c ch_dollar) as [->|_].
  - exfalso. apply H. now left.
  - f_equal. apply IH. intros Hin. apply H. now right.
Qed.

Lemma canonicalize_idem c : canonicalize (canonicalize c) = canonicalize c.
Proof.
  unfold canonicalize.
  destruct ((97 <=? c) && (c <=? 122)) eqn:E; [|now rewrite E].
  apply andb_true_iff in E as [E1 E2].
  apply N.leb_le in E1, E2.
  replace (c - 32 <=? 122) with true by (symmetry; apply N.leb_le; lia).
  replace (97 <=? c - 32) with false by (symmetry; apply N.leb_gt; lia).
  reflexivity.
Qed.

Lemma match_lit_i_canon pat :
  forall s,
    match_lit_i pat (map canonicalize s)
    = option_map (map canonicalize) (match_lit_i pat s).
Proof.
  induction pat as [|p pat IH]; intros [|c s]; simpl; try reflexivity.
  unfold eq_i. rewrite canonicalize_idem.
  destruct (canonicalize p =? canonicalize c); [apply IH | reflexivity].
Qed.

Lemma occurs_i_canon pat s :
  occurs_i pat (map canonicalize s) = occurs_i pat s.
Proof.
  induction s as [|c s IH].
  - reflexivity.
  - change (map canonicalize (c :: s))
      with (canonicalize c :: map canonicalize s).
    rewrite !occurs_i_cons, <- IH.
    change (canonicalize c :: map canonicalize s)
      with (map canonicalize (c :: s)).
    rewrite match_lit_i_canon.
    now destruct (match_lit_i pat (c :: s)).
Qed.

Lemma match_exact_canon pat :
  forall s,
    match_lit_i pat s = Some [] ->
    map canonicalize s = map canonicalize pat.
Proof.
  induction pat as [|p pat IH]; intros s H; simpl in H.
  - now injection H as ->.
  - destruct s as [|c s]; [discriminate|].
    destruct (eq_i p c) eqn:E; [|discriminate].
    apply N.eqb_eq in E. simpl. rewrite E. f_equal. now apply IH.
Qed.

(** Whether another token occurs in a string that is a token up to
    letter case can be read off the token itself. *)
Lemma occurs_i_token other pat tok :
  match_lit_i pat tok = Some [] ->
  occurs_i other tok = occurs_i other pat.
Proof.
  intros H. apply match_exact_canon in H.
  now rewrite <- (occurs_i_canon other tok), H, occurs_i_canon.
Qed.

End RendererFacts.

Module TemplateFacts.
Import EmailService RendererFacts Template.

Lemma eq_i_lbracket c : eq_i ch_lbracket c = true <-> c = ch_lbracket.
Proof.
  unfold eq_i. change (canonicalize ch_lbracket) with ch_lbracket.
  rewrite N.eqb_eq. unfold canonicalize, ch_lbracket.
  destruct ((97 <=? c) && (c <=? 122)) eqn:E.
  - apply andb_true_iff in E as [E1 E2]. apply N.leb_le in E1, E2. lia.
  - split; congruence.
Qed.

Lemma match_lbracket_None pat c s :
  c <> ch_lbracket -> match_lit_i (ch_lbracket :: pat) (c :: s) = None.
Proof.
  intros H. simpl. destruct (eq_i ch_lbracket c) eqn:E; [|reflexivity].
  apply eq_i_lbracket in E. contradiction.
Qed.

(** No match starts inside text without an opening bracket. *)
Lemma replace_scan_text pat repl s :
  forall before rest,
    ~ In ch_lbracket s ->
    replace_scan (ch_lbracket :: pat) repl before 0 (s ++ rest)
    = s ++ replace_scan (ch_lbracket :: pat) repl (before ++ s) 0 rest.
Proof.
  induction s as [|c s IH]; intros before rest H.
  - simpl. now rewrite app_nil_r.
  - change ((c :: s) ++ rest) with (c :: (s ++ rest)).
    rewrite replace_scan_cons_0, match_lbracket_None
      by (intros ->; apply H; now left).
    rewrite IH by (intros Hin; apply H; now right).
    now rewrite <- app_assoc.
Qed.

Lemma replace_scan_skip_exact pat repl m :
  forall before rest,
    replace_scan pat repl before (length m) (m ++ rest)
    = replace_scan pat repl (before ++ m) 0 rest.
Proof.
  induction m as [|c m IH]; intros before rest.
  - simpl. now rewrite app_nil_r.
  - simpl. rewrite IH. now rewrite <- app_assoc.
Qed.

Lemma match_lit_i_app pat :
  forall sp rest,
    match_lit_i pat sp = Some [] -> match_lit_i pat (sp ++ rest) = Some rest.
Proof.
  induction pat as [|p pat IH]; intros sp rest H; simpl in H.
  - now injection H as ->.
  - destruct sp as [|c sp]; [discriminate|]. simpl.
    destruct (eq_i p c); [now apply IH | discriminate].
Qed.

(** A spelled token is replaced, and the scan goes on behind it. *)
Lemma replace_scan_token pat repl sp before rest :
  pat <> [] ->
  match_lit_i pat sp = Some [] ->
  replace_scan pat repl before 0 (sp ++ rest)
  = GetSubstitution sp before rest repl
    ++ replace_scan pat repl (before ++ sp) 0 rest.
Proof.
  intros Hp Hm.
  pose proof (match_lit_i_length _ _ _ Hm) as Hlen.
  rewrite Nat.add_0_r in Hlen.
  destruct sp as [|c sp]; [destruct pat; [congruence | discriminate]|].
  change ((c :: sp) ++ rest) with (c :: (sp ++ rest)).
  rewrite replace_scan_cons_0.
  change (c :: (sp ++ rest)) with ((c :: sp) ++ rest).
  rewrite (match_lit_i_app _ _ rest Hm), <- Hlen, take_app_length.
  f_equal. simpl. rewrite Nat.sub_0_r, replace_scan_skip_exact.
  now rewrite <- app_assoc.
Qed.

Lemma not_In_canonicalize x (l : jsstring) :
  ~ In (canonicalize x) (map canonicalize l) -> ~ In x l.
Proof. intros H Hin. apply H. now apply in_map. Qed.

(** How a token is spelled: an opening bracket first and none after. *)
Lemma spelling_shape k sp :
  match_lit_i (token_text k) sp = Some [] ->
  exists c sp', sp = c :: sp' /\ ~ In ch_lbracket sp'.
Proof.
  intros H. apply match_exact_canon in H.
  destruct sp as [|c sp']; [destruct k; discriminate|].
  exists c, sp'. split; [reflexivity|].
  apply not_In_canonicalize.
  change (map canonicalize (c :: sp'))
    with (canonicalize c :: map canonicalize sp') in H.
  assert (map canonicalize sp' = tl (map canonicalize (token_text k))) as ->
      by (now rewrite <- H).
  destruct k; vm_compute; intuition discriminate.
Qed.

(** The text of one token does not match where another is spelled. *)
Lemma other_token_None k0 k sp rest :
  token_eqb k k0 = false ->
  match_lit_i (token_text k) sp = Some [] ->
  match_lit_i (token_text k0) (sp ++ rest) = None.
Proof.
  intros Hk H. apply match_exact_canon in H.
  pose proof (match_lit_i_canon (token_text k0) (sp ++ rest)) as E.
  rewrite map_app, H in E.
  destruct (match_lit_i (token_text k0) (sp ++ rest)); [|reflexivity].
  destruct k, k0; try discriminate Hk; discriminate E.
Qed.

Lemma replace_scan_other_token k0 k repl sp before rest :
  token_eqb k k0 = false ->
  match_lit_i (token_text k) sp = Some [] ->
  replace_scan (token_text k0) repl before 0 (sp ++ rest)
  = sp ++ replace_scan (token_text k0) repl (before ++ sp) 0 rest.
Proof.
  intros Hk Hm.
  pose proof (other_token_None k0 k sp rest Hk Hm) as Hnone.
  destruct (spelling_shape k sp Hm) as (c & sp' & -> & Hsp').
  change ((c :: sp') ++ rest) with (c :: (sp' ++ rest)) in *.
  rewrite replace_scan_cons_0, Hnone.
  assert (exists pat, token_text k0 = ch_lbracket :: pat) as [pat ->]
      by (destruct k0; eexists; reflexivity).
  rewrite replace_scan_text by assumption.
  now rewrite <- app_assoc.
Qed.

(** One pass over a template in pieces. *)
Lemma pass_template k0 v segs :
  ~ In ch_dollar v ->
  Forall segment_ok segs ->
  forall before,
    replace_scan (token_text k0) v before 0 (template_of segs)
    = template_of (map (pass_segment k0 v) segs).
Proof.
  intros Hd. induction 1 as [|g segs Hg _ IH]; intros before.
  - reflexivity.
  - destruct g as [s|k sp]; simpl in Hg |- *.
    + assert (exists pat, token_text k0 = ch_lbracket :: pat) as [pat E]
          by (destruct k0; eexists; reflexivity).
      rewrite E, replace_scan_text by assumption.
      rewrite <- E. now rewrite IH.
    + destruct (token_eqb k k0) eqn:Hk; simpl.
      * assert (k = k0) as -> by (destruct k, k0; try discriminate; reflexivity).
        rewrite replace_scan_token
          by (assumption || (destruct k0; discriminate)).
        rewrite GetSubstitution_plain by assumption.
        now rewrite IH.
      * rewrite (replace_scan_other_token k0 k) by assumption.
        now rewrite IH.
Qed.

Lemma pass_segment_ok k0 v segs :
  ~ In ch_lbracket v ->
  Forall segment_ok segs ->
  Forall segment_ok (map (pass_segment k0 v) segs).
Proof.
  intros Hv H. apply Forall_map. eapply Forall_impl; [exact H|].
  intros [s|k sp] Hg; simpl; [assumption|].
  destruct (token_eqb k k0); assumption.
Qed.

Lemma four_passes r segs :
  template_of
    (map (pass_segment company_token (token_value r company_token))
       (map (pass_segment email_token (token_value r email_token))
          (map (pass_segment last_name (token_value r last_name))
             (map (pass_segment first_name (token_value r first_name))
                segs))))
  = rendered r segs.
Proof.
  induction segs as [|[s|k sp] segs IH].
  - reflexivity.
  - cbn [map pass_segment template_of rendered]. now rewrite IH.
  - destruct k; cbn [map pass_segment template_of rendered token_eqb];
      now rewrite IH.
Qed.

(** Rendering a template in pieces puts the fields in the places of the
    tokens, when no field value has a dollar sign or an opening bracket. *)
Lemma render_segments r segs :
  Forall segment_ok segs ->
  (forall k, ~ In ch_dollar (token_value r k)
             /\ ~ In ch_lbracket (token_value r k)) ->
  replaceVariables (template_of segs) r = rendered r segs.
Proof.
  intros Hok Hv. unfold replaceVariables, replace_gi.
  change (or_empty (firstName r)) with (token_value r first_name).
  change (or_empty (lastName r)) with (token_value r last_name).
  change (or_empty (company r)) with (token_value r company_token).
  change (email r) with (token_value r email_token).
  rewrite (pass_template first_name) by (apply Hv || assumption).
  rewrite (pass_template last_name)
    by (apply Hv || (apply pass_segment_ok; [apply Hv | assumption])).
  rewrite (pass_template email_token)
    by (apply Hv
        || (repeat (apply pass_segment_ok; [apply Hv |]); assumption)).
  rewrite (pass_template company_token)
    by (apply Hv
        || (repeat (apply pass_segment_ok; [apply Hv |]); assumption)).
  apply four_passes.
Qed.

End TemplateFacts.

Module RendererClaims.
Import EmailService RendererFacts Template.

(** C8: a template in which none of the four tokens occurs, in any
    letter case, is rendered to itself, and rendering is a function of the
    template and the recipient. *)
Theorem render_without_tokens (t : jsstring) (r : EmailRecipient) :
  occurs_i (js "[first_name]") t = false ->
  occurs_i (js "[last_name]") t = false ->
  occurs_i (js "[email]") t = false ->
  occurs_i (js "[company]") t = false ->
  replaceVariables t r = t
  /\ forall t' r', t' = t -> r' = r ->
       replaceVariables t' r' = replaceVariables t r.
Proof.
  intros H1 H2 H3 H4. split.
  - unfold replaceVariables.
    rewrite (replace_gi_no_occurrence (js "[first_name]")) by assumption.
    rewrite (replace_gi_no_occurrence (js "[last_name]")) by assumption.
    rewrite (replace_gi_no_occurrence (js "[email]")) by assumption.
    now apply replace_gi_no_occurrence.
  - now intros t' r' -> ->.
Qed.

Lemma render_without_tokens_witness :
  replaceVariables (js "Dear customer, 50% off [today] only") Examples.ann
  = js "Dear customer, 50% off [today] only".
Proof.
  apply (render_without_tokens (js "Dear customer, 50% off [today] only")
           Examples.ann); reflexivity.
Defined.

(** What each pass does to a string that is one token. *)
Lemma pass_exact pat repl tok :
  pat <> [] ->
  match_lit_i pat tok = Some [] ->
  ~ In ch_dollar repl ->
  replace_gi pat repl tok = repl.
Proof.
  intros Hp Hm Hd.
  rewrite (replace_gi_exact _ _ _ Hp Hm).
  now apply GetSubstitution_plain.
Qed.

Lemma pass_other pat other repl tok :
  match_lit_i pat tok = Some [] ->
  occurs_i other pat = false ->
  replace_gi other repl tok = tok.
Proof.
  intros Hm Ho. apply replace_gi_no_occurrence.
  now rewrite (occurs_i_token other pat tok Hm).
Qed.

Lemma render_first_name_token (r : EmailRecipient) (tok : jsstring) :
  match_lit_i (js "[first_name]") tok = Some [] ->
  ~ In ch_dollar (or_empty (firstName r)) ->
  occurs_i (js "[last_name]") (or_empty (firstName r)) = false ->
  occurs_i (js "[email]") (or_empty (firstName r)) = false ->
  occurs_i (js "[company]") (or_empty (firstName r)) = false ->
  replaceVariables tok r = or_empty (firstName r).
Proof.
  unfold replaceVariables. intros Hm Hd H2 H3 H4.
  rewrite (pass_exact (js "[first_name]")) by (assumption || discriminate).
  rewrite (replace_gi_no_occurrence (js "[last_name]")) by assumption.
  rewrite (replace_gi_no_occurrence (js "[email]")) by assumption.
  now apply replace_gi_no_occurrence.
Qed.

Lemma render_last_name_token (r : EmailRecipient) (tok : jsstring) :
  match_lit_i (js "[last_name]") tok = Some [] ->
  ~ In ch_dollar (or_empty (lastName r)) ->
  occurs_i (js "[email]") (or_empty (lastName r)) = false ->
  occurs_i (js "[company]") (or_empty (lastName r)) = false ->
  replaceVariables tok r = or_empty (lastName r).
Proof.
  unfold replaceVariables. intros Hm Hd H3 H4.
  rewrite (pass_other (js "[last_name]") (js "[first_name]"))
    by (assumption || reflexivity).
  rewrite (pass_exact (js "[last_name]")) by (assumption || discriminate).
  rewrite (replace_gi_no_occurrence (js "[email]")) by assumption.
  now apply replace_gi_no_occurrence.
Qed.

Lemma render_email_token (r : EmailRecipient) (tok : jsstring) :
  match_lit_i (js "[email]") tok = Some [] ->
  ~ In ch_dollar (email r) ->
  occurs_i (js "[company]") (email r) = false ->
  replaceVariables tok r = email r.
Proof.
  unfold replaceVariables. intros Hm Hd H4.
  rewrite (pass_other (js "[email]") (js "[first_name]"))
    by (assumption || reflexivity).
  rewrite (pass_other (js "[email]") (js "[last_name]"))
    by (assumption || reflexivity).
  rewrite (pass_exact (js "[email]")) by (assumption || discriminate).
  now apply replace_gi_no_occurrence.
Qed.

Lemma render_company_token (r : EmailRecipient) (tok : jsstring) :
  match_lit_i (js "[company]") tok = Some [] ->
  ~ In ch_dollar (or_empty (company r)) ->
  replaceVariables tok r = or_empty (company r).
Proof.
  unfold replaceVariables. intros Hm Hd.
  rewrite (pass_other (js "[company]") (js "[first_name]"))
    by (assumption || reflexivity).
  rewrite (pass_other (js "[company]") (js "[last_name]"))
    by (assumption || reflexivity).
  rewrite (pass_other (js "[company]") (js "[email]"))
    by (assumption || reflexivity).
  apply pass_exact; assumption || discriminate.
Qed.

Lemma not_In_char x (v : jsstring) :
  existsb (N.eqb x) v = false -> ~ In x v.
Proof.
  intros H Hin.
  assert (existsb (N.eqb x) v = true) as E; [|congruence].
  apply existsb_exists. exists x. split; [assumption|].
  apply N.eqb_refl.
Qed.

Lemma not_In_dollar (v : jsstring) :
  existsb (N.eqb ch_dollar) v = false -> ~ In ch_dollar v.
Proof. apply not_In_char. Qed.

(** C4, as the code has it.  A template that is one token, in any letter
    case, renders to the recipient's field for that token (the empty
    string for an absent optional field), provided that the value has no
    dollar sign and spells none of the tokens that are substituted after
    it; in particular the email token renders to the address when the
    address has no dollar sign and does not spell the company token.  And
    in a template made of text without an opening bracket and of tokens,
    every token is replaced by its field, provided that no field value has
    a dollar sign or an opening bracket. *)
Theorem render_tokens (r : EmailRecipient) :
  (forall tok,
      match_lit_i (js "[email]") tok = Some [] ->
      ~ In ch_dollar (email r) ->
      occurs_i (js "[company]") (email r) = false ->
      replaceVariables tok r = email r)
  /\ (forall tok,
        match_lit_i (js "[first_name]") tok = Some [] ->
        ~ In ch_dollar (or_empty (firstName r)) ->
        occurs_i (js "[last_name]") (or_empty (firstName r)) = false ->
        occurs_i (js "[email]") (or_empty (firstName r)) = false ->
        occurs_i (js "[company]") (or_empty (firstName r)) = false ->
        replaceVariables tok r = or_empty (firstName r))
  /\ (forall tok,
        match_lit_i (js "[last_name]") tok = Some [] ->
        ~ In ch_dollar (or_empty (lastName r)) ->
        occurs_i (js "[email]") (or_empty (lastName r)) = false ->
        occurs_i (js "[company]") (or_empty (lastName r)) = false ->
        replaceVariables tok r = or_empty (lastName r))
  /\ (forall tok,
        match_lit_i (js "[company]") tok = Some [] ->
        ~ In ch_dollar (or_empty (company r)) ->
        replaceVariables tok r = or_empty (company r))
  /\ (forall segs,
        Forall segment_ok segs ->
        (forall k, ~ In ch_dollar (token_value r k)
                   /\ ~ In ch_lbracket (token_value r k)) ->
        replaceVariables (template_of segs) r = rendered r segs).
Proof.
  split; [intros tok; apply render_email_token|].
  split; [intros tok; apply render_first_name_token|].
  split; [intros tok; apply render_last_name_token|].
  split; [intros tok; apply render_company_token|].
  intros segs. apply TemplateFacts.render_segments.
Qed.

Lemma render_tokens_witness :
  validateRecipient Examples.ann = true
  /\ replaceVariables (js "[Email]") Examples.ann = email Examples.ann
  /\ replaceVariables (js "[COMPANY]") Examples.ann = []
  /\ replaceVariables (js "Hello [first_name] at [company]") Examples.ann
     = js "Hello Ann at ".
Proof.
  destruct (render_tokens Examples.ann) as (He & _ & _ & Hc & Hs).
  split; [reflexivity|]. split; [|split].
  - apply (He (js "[Email]"));
      [reflexivity | apply not_In_dollar; reflexivity | reflexivity].
  - apply (Hc (js "[COMPANY]"));
      [reflexivity | apply not_In_dollar; reflexivity].
  - apply (Hs [Text (js "Hello "); Token first_name (js "[first_name]");
               Text (js " at "); Token company_token (js "[company]")]).
    + repeat first [apply List.Forall_nil | apply List.Forall_cons];
        cbn [segment_ok];
        first [apply not_In_char; reflexivity | reflexivity].
    + intros k; destruct k; split; apply not_In_char; reflexivity.
Defined.

(** C4 as stated fails: the address below is accepted by
    [validateRecipient], and the email token does not render to it,
    because the company pass runs over the inserted address. *)
Lemma render_email_token_counterexample :
  validateRecipient Examples.token_address = true
  /\ replaceVariables (js "[email]") Examples.token_address = js "Acme@x.com"
  /\ replaceVariables (js "[email]") Examples.token_address
     <> email Examples.token_address.
Proof.
  split; [reflexivity|]. split; [reflexivity|].
  intros H. vm_compute in H. discriminate.
Qed.




End RendererClaims.

(** ** The send loop and [sendEmail] *)

Module DispatchFacts.
Import EmailService Delivery.

Lemma sent_messages_app tr1 tr2 :
  sent_messages (tr1 ++ tr2) = sent_messages tr1 ++ sent_messages tr2.
Proof. apply omap_app. Qed.

Lemma clients_created_app tr1 tr2 :
  clients_created (tr1 ++ tr2) = clients_created tr1 ++ clients_created tr2.
Proof. apply omap_app. Qed.

Lemma bind_emit {B} e (k : unit -> M B) tr :
  bind (emit e) k tr = k tt (tr ++ [e]).
Proof. reflexivity. Qed.

Lemma bind_log {B} l t (k : unit -> M B) tr :
  bind (log l t) k tr = k tt (tr ++ [Log l (js t)]).
Proof. reflexivity. Qed.

Lemma bind_sendAsync {B} server m (k : unit -> M B) tr :
  bind (sendAsync server m) k tr =
  match server (sent_messages tr) m with
  | None => k tt (tr ++ [SendAsync m])
  | Some e => (tr ++ [SendAsync m], Throw e)
  end.
Proof.
  unfold bind, sendAsync. now destruct (server (sent_messages tr) m).
Qed.

Lemma accepted_nil server hist msgs : accepted server hist msgs 0.
Proof. intros j m Hj. lia. Qed.

Lemma accepted_cons server hist m msgs k :
  server hist m = None ->
  accepted server (hist ++ [m]) msgs k ->
  accepted server hist (m :: msgs) (S k).
Proof.
  intros H0 H [|j] m' Hj Hm; simpl in *.
  - injection Hm as <-. now rewrite app_nil_r.
  - specialize (H j m' ltac:(lia) Hm).
    now rewrite <- app_assoc in H.
Qed.

Lemma rejected_at_cons server hist m msgs k e :
  rejected_at server (hist ++ [m]) msgs k e ->
  rejected_at server hist (m :: msgs) (S k) e.
Proof.
  intros (m' & Hm & H). exists m'. split; [assumption|].
  simpl. now rewrite <- app_assoc in H.
Qed.

(** What the loop does from any trace: it hands the messages to the
    server in order and stops at the first one that is rejected. *)
Lemma send_loop_outcome server s h c rs :
  forall tr,
  exists tr' res,
    send_loop server s h c rs tr = (tr', res)
    /\ clients_created tr' = clients_created tr
    /\ ((res = Return tt
         /\ sent_messages tr'
            = sent_messages tr ++ map (personalizedMessage s h c) rs
         /\ accepted server (sent_messages tr)
              (map (personalizedMessage s h c) rs) (length rs))
        \/ (exists k e,
              res = Throw e
              /\ sent_messages tr'
                 = sent_messages tr
                   ++ take (S k) (map (personalizedMessage s h c) rs)
              /\ accepted server (sent_messages tr)
                   (map (personalizedMessage s h c) rs) k
              /\ rejected_at server (sent_messages tr)
                   (map (personalizedMessage s h c) rs) k e)).
Proof.
  induction rs as [|r rs IH]; intros tr.
  - exists tr, (Return tt). simpl. repeat split.
    left. rewrite app_nil_r. repeat split. apply accepted_nil.
  - cbn [send_loop map length].
    set (m := personalizedMessage s h c r).
    set (msgs := map (personalizedMessage s h c) rs) in *.
    rewrite bind_log, bind_sendAsync.
    rewrite sent_messages_app, app_nil_r.
    destruct (server (sent_messages tr) m) as [e|] eqn:Es.
    + eexists _, _. split; [reflexivity|].
      rewrite !clients_created_app, !sent_messages_app. simpl.
      rewrite !app_nil_r. split; [reflexivity|].
      right. exists 0%nat, e. repeat split.
      * apply accepted_nil.
      * exists m. simpl. rewrite app_nil_r. auto.
    + rewrite bind_log.
      destruct (IH (((tr ++ [Log info (js "Sending email")])
                       ++ [SendAsync m])
                      ++ [Log info (js "Email sent successfully")]))
        as (tr' & res & Erun & Hc & Hout).
      exists tr', res. split; [exact Erun|].
      rewrite !clients_created_app, !sent_messages_app in *. simpl in *.
      rewrite !app_nil_r in *. split; [exact Hc|].
      destruct Hout as [(-> & Hs & Ha) | (k & e & -> & Hs & Ha & Hr)].
      * left. repeat split.
        -- now rewrite Hs, <- app_assoc.
        -- now apply accepted_cons.
      * right. exists (S k), e. repeat split.
        -- now rewrite Hs, <- app_assoc.
        -- now apply accepted_cons.
        -- now apply rejected_at_cons.
Qed.

Lemma sent_messages_prologue to : sent_messages (prologue to) = [].
Proof. unfold prologue. now destruct (0 <? _)%nat. Qed.

Lemma clients_created_prologue to : clients_created (prologue to) = [].
Proof. unfold prologue. now destruct (0 <? _)%nat. Qed.

Lemma sendEmail_prologue env server params tr0 :
  sendEmail env server params tr0 =
  (if (length (validRecipients (to params)) =? 0)%nat then
     bind (log error "Email send failed - no valid recipients")
          (fun _ => throw (Error (js "No valid recipients provided")))
   else
     bind (new_SMTPClient (clientOptions env (smtp params)))
          (fun _ =>
             try_catch
               (send_loop server (subject params) (html params) (smtp params)
                  (validRecipients (to params)))
               (fun err =>
                  bind (log error "Email send failed") (fun _ => throw err))))
    (tr0 ++ prologue (to params)).
Proof.
  unfold sendEmail, prologue. rewrite bind_log.
  unfold when. destruct (0 <? _)%nat.
  - rewrite bind_log, <- app_assoc. reflexivity.
  - unfold bind at 1, ret. rewrite app_nil_r. reflexivity.
Qed.

(** With no valid recipient [sendEmail] logs and throws; nothing else. *)
Lemma sendEmail_no_valid env server params tr0 :
  validRecipients (to params) = [] ->
  sendEmail env server params tr0 =
  ((tr0 ++ prologue (to params))
     ++ [Log error (js "Email send failed - no valid recipients")],
   Throw (Error (js "No valid recipients provided"))).
Proof.
  intros H. rewrite sendEmail_prologue, H. reflexivity.
Qed.

(** With a valid recipient [sendEmail] creates the client, runs the loop,
    and rethrows what the loop throws after logging it. *)
Lemma sendEmail_some_valid env server params tr0 :
  validRecipients (to params) <> [] ->
  sendEmail env server params tr0 =
  match send_loop server (subject params) (html params) (smtp params)
          (validRecipients (to params))
          ((tr0 ++ prologue (to params))
             ++ [NewSMTPClient (clientOptions env (smtp params))]) with
  | (tr, Return a) => (tr, Return a)
  | (tr, Throw e) => (tr ++ [Log error (js "Email send failed")], Throw e)
  end.
Proof.
  intros H. rewrite sendEmail_prologue.
  destruct (validRecipients (to params)) as [|r rs] eqn:E; [congruence|].
  cbn [length Nat.eqb]. unfold new_SMTPClient. rewrite bind_emit.
  unfold try_catch.
  destruct (send_loop _ _ _ _ _ _) as [tr [a|e]]; reflexivity.
Qed.

Lemma validRecipients_nil to :
  Forall (fun r => validateRecipient r = false) to <-> validRecipients to = [].
Proof.
  unfold validRecipients. induction to as [|r to IH]; simpl.
  - split; auto.
  - rewrite Forall_cons, IH.
    destruct (validateRecipient r); split; intros H;
      try discriminate; try tauto.
    destruct H; discriminate.
Qed.

End DispatchFacts.

Module DispatchClaims.
Import EmailService Delivery DispatchFacts.

(** C5: when no recipient of the request passes [validateRecipient],
    [sendEmail] throws the error "No valid recipients provided", and the
    trace it leaves has no client construction and no send. *)
Theorem no_valid_recipients_no_session env server (params : EmailParams) :
  Forall (fun r => validateRecipient r = false) (to params) ->
  exists tr,
    run (sendEmail env server params)
    = (tr, Throw (Error (js "No valid recipients provided")))
    /\ clients_created tr = []
    /\ sent_messages tr = [].
Proof.
  intros H. apply validRecipients_nil in H.
  unfold run. rewrite (sendEmail_no_valid env server params [] H).
  eexists. split; [reflexivity|].
  rewrite app_nil_l, clients_created_app, sent_messages_app,
    clients_created_prologue, sent_messages_prologue.
  split; reflexivity.
Qed.

Lemma no_valid_recipients_no_session_witness :
  exists tr,
    run (sendEmail Examples.env_production Examples.accept_all
           {| to := [Examples.malformed;
                     Examples.recipient "also bad@x.com" None None None];
              subject := js "Hi";
              html := js "<p>Hi</p>";
              smtp := Examples.smtp_config |})
    = (tr, Throw (Error (js "No valid recipients provided")))
    /\ clients_created tr = []
    /\ sent_messages tr = [].
Proof.
  apply (no_valid_recipients_no_session Examples.env_production
           Examples.accept_all).
  simpl. repeat constructor.
Defined.

(** C1, as the code has it: with at least one valid recipient,
    [sendEmail] constructs one client and hands the messages of the valid
    recipients to it in input order.  If every send is accepted it
    returns.  Otherwise it stops at the first rejected send and throws the
    very value that send was rejected with, whatever the kind of
    rejection: the sends before it were accepted, and no recipient after
    it is attempted. *)
Theorem sendEmail_stops_at_first_rejection env server (params : EmailParams) :
  validRecipients (to params) <> [] ->
  exists tr res,
    run (sendEmail env server params) = (tr, res)
    /\ clients_created tr = [clientOptions env (smtp params)]
    /\ ((res = Return tt
         /\ sent_messages tr = batch_messages params
         /\ accepted server [] (batch_messages params)
              (length (batch_messages params)))
        \/ (exists k e,
              res = Throw e
              /\ sent_messages tr = take (S k) (batch_messages params)
              /\ accepted server [] (batch_messages params) k
              /\ rejected_at server [] (batch_messages params) k e)).
Proof.
  intros Hv. unfold run. rewrite (sendEmail_some_valid _ _ _ _ Hv).
  destruct (send_loop_outcome server (subject params) (html params)
              (smtp params) (validRecipients (to params))
              (([] ++ prologue (to params))
                 ++ [NewSMTPClient (clientOptions env (smtp params))]))
    as (tr & res & -> & Hc & Hout).
  rewrite app_nil_l in Hc, Hout.
  rewrite clients_created_app, clients_created_prologue in Hc.
  rewrite sent_messages_app, sent_messages_prologue in Hout.
  simpl in Hc, Hout. fold (batch_messages params) in Hout.
  destruct Hout as [(-> & Hs & Ha) | (k & e & -> & Hs & Ha & Hr)].
  - exists tr, (Return tt). repeat split; auto.
    left. repeat split; auto.
    replace (length (batch_messages params))
      with (length (validRecipients (to params)))
      by (unfold batch_messages; now rewrite length_map).
    exact Ha.
  - exists (tr ++ [Log error (js "Email send failed")]), (Throw e).
    rewrite clients_created_app, sent_messages_app. simpl.
    rewrite !app_nil_r. repeat split; auto.
    right. exists k, e. auto.
Qed.

Lemma sendEmail_stops_at_first_rejection_witness :
  exists tr res,
    run (sendEmail Examples.env_production Examples.accept_all
           Examples.batch_of_three) = (tr, res)
    /\ clients_created tr
       = [clientOptions Examples.env_production Examples.smtp_config]
    /\ ((res = Return tt
         /\ sent_messages tr = batch_messages Examples.batch_of_three
         /\ accepted Examples.accept_all [] (batch_messages Examples.batch_of_three)
              (length (batch_messages Examples.batch_of_three)))
        \/ (exists k e,
              res = Throw e
              /\ sent_messages tr
                 = take (S k) (batch_messages Examples.batch_of_three)
              /\ accepted Examples.accept_all []
                   (batch_messages Examples.batch_of_three) k
              /\ rejected_at Examples.accept_all []
                   (batch_messages Examples.batch_of_three) k e)).
Proof.
  apply (sendEmail_stops_at_first_rejection Examples.env_production
           Examples.accept_all Examples.batch_of_three).
  vm_compute. discriminate.
Defined.

(** C1 as stated fails: three valid recipients, the server rejects the
    message for the second mailbox only and would accept any message for
    the third.  [sendEmail] throws that rejection, which is not the
    no-valid-recipients error; the messages for the first two recipients
    were handed over and the third recipient was never attempted. *)
Lemma message_rejection_aborts_batch_counterexample :
  validRecipients (to Examples.batch_of_three)
  = [Examples.ann; Examples.bob; Examples.cy]
  /\ (forall hist m,
        msg_to m = js "c@x.com" ->
        Examples.reject_mailbox "b@x.com" Examples.mailbox_unavailable hist m
        = None)
  /\ exists tr,
       run (sendEmail Examples.env_production
              (Examples.reject_mailbox "b@x.com" Examples.mailbox_unavailable)
              Examples.batch_of_three)
       = (tr, Throw Examples.mailbox_unavailable)
       /\ Examples.mailbox_unavailable
          <> Error (js "No valid recipients provided")
       /\ map msg_to (sent_messages tr) = [js "a@x.com"; js "b@x.com"]
       /\ ~ In (js "c@x.com") (map msg_to (sent_messages tr)).
Proof.
  split; [reflexivity|].
  split; [intros hist m Hm; unfold Examples.reject_mailbox; now rewrite Hm|].
  eexists. split; [vm_compute; reflexivity|].
  split; [discriminate|].
  split; [reflexivity|].
  vm_compute. intros [H|[H|[]]]; discriminate.
Qed.

End DispatchClaims.

(** ** The HTTP handler *)

Module HandlerFacts.
Import EmailService Routes Delivery DispatchFacts.

Lemma missing_field_cases c field :
  missing_field c = Some field ->
  In field ["host"; "port"; "username"; "password"; "secure"; "fromEmail";
            "fromName"]%string.
Proof.
  unfold missing_field. intros H.
  repeat match type of H with
         | (if ?b then _ else _) = _ => destruct b
         end;
    try discriminate; injection H as <-; simpl; tauto.
Qed.

(** Validation leaves the trace alone; it returns the body at its
    declared type, or throws an [Error] whose message the handler
    classifies as a validation error. *)
Lemma validateEmailRequest_outcome b tr :
  (exists x,
      validateEmailRequest b tr = (tr, Return x)
      /\ raw_recipients b = Some (recipients x)
      /\ recipients x <> [])
  \/ (exists msg,
        validateEmailRequest b tr = (tr, Throw (Error msg))
        /\ isValidationError msg = true).
Proof.
  unfold validateEmailRequest.
  destruct (raw_recipients b) as [[|r rs]|] eqn:Er;
    [right; eexists; split; [reflexivity | reflexivity] | |
     right; eexists; split; [reflexivity | reflexivity]].
  destruct (raw_subject b) as [subj|];
    [|right; eexists; split; [reflexivity | reflexivity]].
  destruct (is_blank subj);
    [right; eexists; split; [reflexivity | reflexivity]|].
  destruct (raw_body b) as [emailBody|];
    [|right; eexists; split; [reflexivity | reflexivity]].
  destruct (is_blank emailBody);
    [right; eexists; split; [reflexivity | reflexivity]|].
  destruct (raw_smtpConfig b) as [c|];
    [|right; eexists; split; [reflexivity | reflexivity]].
  destruct (missing_field c) as [field|] eqn:Em.
  - right. eexists. split; [reflexivity|].
    apply missing_field_cases in Em. simpl in Em.
    repeat destruct Em as [<-|Em]; reflexivity.
  - destruct c as [[h|] [[p|]|] [u|] [pw|] [sec|] [fe|] [fn|]];
      try (right; eexists; split; [reflexivity | reflexivity]).
    destruct (Qle_bool p 0);
      [right; eexists; split; [reflexivity | reflexivity]|].
    left. eexists. split; [reflexivity|]. simpl. split; [reflexivity|].
    discriminate.
Qed.

Lemma errorResponse_run env e tr :
  exists resp,
    errorResponse env e tr
    = (tr ++ [Log error (js (match e with
                             | Error _ => "Email send request failed"
                             | NonError => "Unknown error in email send request"
                             end))],
       Return resp)
    /\ success resp = false
    /\ status resp = match e with
                     | Error msg => if isValidationError msg then 400 else 500
                     | NonError => 500
                     end.
Proof.
  destruct e as [msg|]; eexists; (split; [reflexivity|]); split; reflexivity.
Qed.

Lemma sendEmailHandler_run env server req_body :
  run (sendEmailHandler env server req_body) =
  match validateEmailRequest req_body
          [Log info (js "Received email send request")] with
  | (tr1, Throw e) => errorResponse env e tr1
  | (tr1, Return b) =>
      match sendEmail env server (emailParams b) tr1 with
      | (tr2, Throw e) => errorResponse env e tr2
      | (tr2, Return _) =>
          (tr2 ++ [Log info (js "Email send request completed")],
           Return (successResponse b))
      end
  end.
Proof.
  unfold run, sendEmailHandler, try_catch. rewrite bind_log.
  unfold bind at 1.
  destruct (validateEmailRequest _ _) as [tr1 [b|e]]; [|reflexivity].
  unfold bind at 1.
  destruct (sendEmail _ _ _ _) as [tr2 [[]|e]]; reflexivity.
Qed.

(** The handler always answers. *)
Lemma sendEmailHandler_total env server req_body :
  exists tr resp, run (sendEmailHandler env server req_body) = (tr, Return resp).
Proof.
  rewrite sendEmailHandler_run.
  destruct (validateEmailRequest _ _) as [tr1 [b|e]].
  - destruct (sendEmail _ _ _ _) as [tr2 [[]|e]].
    + eauto.
    + destruct (errorResponse_run env e tr2) as (resp & -> & _). eauto.
  - destruct (errorResponse_run env e tr1) as (resp & -> & _). eauto.
Qed.

(** What is left of a successful run of the handler. *)
Lemma sendEmailHandler_success env server req_body tr resp :
  run (sendEmailHandler env server req_body) = (tr, Return resp) ->
  success resp = true ->
  exists b,
    validateEmailRequest req_body [Log info (js "Received email send request")]
    = ([Log info (js "Received email send request")], Return b)
    /\ raw_recipients req_body = Some (recipients b)
    /\ resp = successResponse b
    /\ sent_messages tr = batch_messages (emailParams b).
Proof.
  rewrite sendEmailHandler_run. intros Hrun Hs.
  destruct (validateEmailRequest_outcome req_body
              [Log info (js "Received email send request")])
    as [(b & Ev & Er & Hne) | (msg & Ev & _)]; rewrite Ev in Hrun.
  2: { destruct (errorResponse_run env (Error msg)
                   [Log info (js "Received email send request")])
         as (resp' & E & Hf & _).
       rewrite E in Hrun. injection Hrun as _ <-. congruence. }
  exists b. split; [exact Ev|]. split; [assumption|].
  destruct (validRecipients (to (emailParams b))) as [|r0 rs0] eqn:Evalid.
  - rewrite (sendEmail_no_valid _ _ _ _ Evalid) in Hrun.
    destruct (errorResponse_run env
                (Error (js "No valid recipients provided"))
                (([Log info (js "Received email send request")]
                    ++ prologue (to (emailParams b)))
                   ++ [Log error
                         (js "Email send failed - no valid recipients")]))
      as (resp' & E & Hf & _).
    rewrite E in Hrun. injection Hrun as _ <-. congruence.
  - assert (validRecipients (to (emailParams b)) <> []) as Hv
        by (rewrite Evalid; discriminate).
    rewrite (sendEmail_some_valid _ _ _ _ Hv) in Hrun.
    destruct (send_loop_outcome server (EmailService.subject (emailParams b))
                (html (emailParams b)) (smtp (emailParams b))
                (validRecipients (to (emailParams b)))
                (([Log info (js "Received email send request")]
                    ++ prologue (to (emailParams b)))
                   ++ [NewSMTPClient
                         (clientOptions env (smtp (emailParams b)))]))
      as (tr' & res & El & _ & Hout).
    rewrite El in Hrun.
    rewrite !sent_messages_app, sent_messages_prologue in Hout.
    simpl in Hout.
    destruct Hout as [(-> & Hsent & _) | (k & e & -> & _)].
    + injection Hrun as <- <-. split; [reflexivity|].
      rewrite sent_messages_app, Hsent, app_nil_r. reflexivity.
    + destruct (errorResponse_run env e
                  (tr' ++ [Log error (js "Email send failed")]))
        as (resp' & E & Hf & _).
      rewrite E in Hrun. injection Hrun as _ <-. congruence.
Qed.

End HandlerFacts.

Module HandlerClaims.
Import EmailService Routes Delivery DispatchFacts HandlerFacts.

(** C10: when the handler answers with success, the message reads
    "Email sent successfully to N recipient(s)" with N the length of the
    [recipients] array of the request: the number of messages handed to
    the server plus the number of recipients that failed validation, to
    whom nothing was sent. *)
Theorem success_message_counts_all_recipients env server req_body tr resp :
  run (sendEmailHandler env server req_body) = (tr, Return resp) ->
  success resp = true ->
  exists rs,
    raw_recipients req_body = Some rs
    /\ status resp = 200
    /\ message resp
       = js "Email sent successfully to "
         ++ Number_toString (length rs) ++ js " recipient(s)"
    /\ length rs
       = (length (sent_messages tr) + length (invalidRecipients rs))%nat.
Proof.
  intros Hrun Hs.
  destruct (sendEmailHandler_success _ _ _ _ _ Hrun Hs)
    as (b & _ & Er & -> & Hsent).
  exists (recipients b). repeat split; try assumption.
  rewrite Hsent. unfold batch_messages. rewrite length_map.
  symmetry. apply (ValidatorFacts.partition_lengths (recipients b)).
Qed.

Lemma success_message_counts_all_recipients_witness :
  exists tr resp,
    run (sendEmailHandler Examples.env_production Examples.accept_all
           Examples.mixed_request) = (tr, Return resp)
    /\ message resp = js "Email sent successfully to 2 recipient(s)"
    /\ map msg_to (sent_messages tr) = [js "a@x.com"]
    /\ exists rs,
         raw_recipients Examples.mixed_request = Some rs
         /\ status resp = 200
         /\ message resp
            = js "Email sent successfully to "
              ++ Number_toString (length rs) ++ js " recipient(s)"
         /\ length rs
            = (length (sent_messages tr) + length (invalidRecipients rs))%nat.
Proof.
  destruct (run (sendEmailHandler Examples.env_production Examples.accept_all
                   Examples.mixed_request)) as [tr res] eqn:E.
  vm_compute in E. injection E as <- <-.
  eexists _, _. split; [reflexivity|].
  split; [reflexivity|]. split; [reflexivity|].
  apply (success_message_counts_all_recipients Examples.env_production
           Examples.accept_all Examples.mixed_request);
    [vm_compute; reflexivity | reflexivity].
Defined.

(** C2 at a request whose only recipient fails validation: the request
    passes [validateEmailRequest], [sendEmail] throws "No valid recipients
    provided", no client is constructed, and the handler answers with
    status 500 and the message "Failed to send email".  A request with
    an empty [recipients] array is answered with status 400. *)
Theorem no_valid_recipients_answered_500 :
  Forall (fun r => validateRecipient r = false) [Examples.malformed]
  /\ (exists tr resp,
        run (sendEmailHandler Examples.env_production Examples.accept_all
               Examples.malformed_request) = (tr, Return resp)
        /\ clients_created tr = []
        /\ status resp = 500
        /\ success resp = false
        /\ message resp = js "Failed to send email")
  /\ (exists tr resp,
        run (sendEmailHandler Examples.env_production Examples.accept_all
               (Examples.request [])) = (tr, Return resp)
        /\ status resp = 400
        /\ message resp = js "Recipients must be a non-empty array").
Proof.
  split; [repeat constructor|]. split.
  - eexists _, _. split; [vm_compute; reflexivity|].
    repeat split.
  - eexists _, _. split; [vm_compute; reflexivity|].
    repeat split.
Qed.

(** The classification goes by the words of the message, so a failure of
    the SMTP server whose text has the word "required" is answered with
    status 400. *)
Lemma smtp_failure_answered_400 :
  exists tr resp,
    run (sendEmailHandler Examples.env_production
           (Examples.reject_mailbox "a@x.com" Examples.authentication_required)
           Examples.mixed_request) = (tr, Return resp)
    /\ map msg_to (sent_messages tr) = [js "a@x.com"]
    /\ status resp = 400.
Proof.
  eexists _, _. split; [vm_compute; reflexivity|]. repeat split.
Qed.

(** Every request without a valid recipient that passes the validation of
    its shape is answered with status 500. *)
Lemma no_valid_recipients_status env server req_body b :
  validateEmailRequest req_body [Log info (js "Received email send request")]
  = ([Log info (js "Received email send request")], Return b) ->
  Forall (fun r => validateRecipient r = false) (recipients b) ->
  exists tr resp,
    run (sendEmailHandler env server req_body) = (tr, Return resp)
    /\ status resp = 500.
Proof.
  intros Ev Hinv. rewrite sendEmailHandler_run, Ev.
  apply validRecipients_nil in Hinv.
  rewrite (sendEmail_no_valid env server (emailParams b) _ Hinv).
  destruct (errorResponse_run env (Error (js "No valid recipients provided"))
              (([Log info (js "Received email send request")]
                  ++ prologue (to (emailParams b)))
                 ++ [Log error (js "Email send failed - no valid recipients")]))
    as (resp & E & _ & Hst).
  eexists _, resp. split; [exact E|]. exact Hst.
Qed.

End HandlerClaims.

(** * Further properties *)

(** ** White space, [trim] and [split] *)

Module BuiltinFacts.
Import Vocabulary.

Lemma trimStart_decompose s :
  exists w, s = w ++ trimStart s /\ Forall (fun c => is_space c = true) w.
Proof.
  induction s as [|c s (w & E & Hw)]; simpl.
  - exists []. split; [reflexivity | constructor].
  - destruct (is_space c) eqn:Ec.
    + exists (c :: w). split; [simpl; congruence | now constructor].
    + exists []. split; [reflexivity | constructor].
Qed.

Lemma trimStart_head s c s' : trimStart s = c :: s' -> is_space c = false.
Proof.
  induction s as [|d s IH]; simpl; [discriminate|].
  destruct (is_space d) eqn:Ed; [exact IH|].
  intros H. injection H as -> _. exact Ed.
Qed.

Lemma trimStart_spaces s :
  Forall (fun c => is_space c = true) s -> trimStart s = [].
Proof.
  induction 1 as [|c s Hc _ IH]; simpl; [reflexivity|]. now rewrite Hc.
Qed.

Lemma trimStart_nil_iff s :
  trimStart s = [] <-> Forall (fun c => is_space c = true) s.
Proof.
  split; [|apply trimStart_spaces].
  intros H. destruct (trimStart_decompose s) as (w & E & Hw).
  rewrite H, app_nil_r in E. now subst.
Qed.

Lemma trimStart_fixed s :
  (forall c s', s = c :: s' -> is_space c = false) -> trimStart s = s.
Proof.
  destruct s as [|c s]; [reflexivity|]. intros H. simpl.
  now rewrite (H c s eq_refl).
Qed.

(** [trim] cuts white space off both ends and nothing else. *)
Lemma trim_decompose s :
  exists w1 w2,
    s = w1 ++ trim s ++ w2
    /\ Forall (fun c => is_space c = true) w1
    /\ Forall (fun c => is_space c = true) w2.
Proof.
  unfold trim.
  destruct (trimStart_decompose s) as (w1 & E1 & H1).
  destruct (trimStart_decompose (rev (trimStart s))) as (w2 & E2 & H2).
  exists w1, (rev w2). repeat split; [|assumption | now apply Forall_rev].
  rewrite <- rev_app_distr, <- E2, rev_involutive. exact E1.
Qed.

Lemma trim_trimmed s : trimmed (trim s).
Proof.
  unfold trim. split; intros c s' E.
  - destruct (trimStart_decompose (rev (trimStart s))) as (w & Ew & _).
    apply (f_equal (@rev _)) in Ew.
    rewrite rev_involutive, rev_app_distr, E in Ew.
    now apply (trimStart_head s c (s' ++ rev w)).
  - apply (f_equal (@rev _)) in E.
    rewrite rev_involutive, rev_app_distr in E. simpl in E.
    now apply (trimStart_head _ _ _ E).
Qed.

Lemma trim_fixed s : trimmed s -> trim s = s.
Proof.
  intros [Hh Hl]. unfold trim.
  rewrite (trimStart_fixed s Hh).
  rewrite trimStart_fixed; [apply rev_involutive|].
  intros c s' E. apply (Hl c (rev s')).
  apply (f_equal (@rev _)) in E. now rewrite rev_involutive in E.
Qed.

Lemma trim_nil_iff s :
  trim s = [] <-> Forall (fun c => is_space c = true) s.
Proof.
  split.
  - intros H. destruct (trim_decompose s) as (w1 & w2 & E & H1 & H2).
    rewrite H in E. rewrite E. apply Forall_app. now split.
  - intros H. unfold trim. now rewrite (trimStart_spaces s H).
Qed.

Lemma is_blank_iff s :
  Routes.is_blank s = true <-> Forall (fun c => is_space c = true) s.
Proof.
  unfold Routes.is_blank. rewrite Nat.eqb_eq, <- trim_nil_iff.
  destruct (trim s); simpl; split; congruence.
Qed.

Lemma split_pieces_join sep s :
  forall piece pieces,
    split_pieces sep s = (piece, pieces) -> join sep (piece :: pieces) = s.
Proof.
  induction s as [|c s IH]; intros piece pieces H; simpl in H.
  - now injection H as <- <-.
  - destruct (split_pieces sep s) as [p ps].
    specialize (IH p ps eq_refl).
    destruct (N.eqb_spec c sep) as [->|_]; injection H as <- <-.
    + simpl. simpl in IH. now rewrite IH.
    + destruct ps; simpl in *; now rewrite IH.
Qed.

Lemma split_pieces_free sep s :
  forall piece pieces,
    split_pieces sep s = (piece, pieces) ->
    Forall (fun p => ~ In sep p) (piece :: pieces).
Proof.
  induction s as [|c s IH]; intros piece pieces H; simpl in H.
  - injection H as <- <-. repeat constructor. intros [].
  - destruct (split_pieces sep s) as [p ps].
    specialize (IH p ps eq_refl). apply Forall_cons in IH as [Hp Hps].
    destruct (N.eqb_spec c sep) as [->|Hne]; injection H as <- <-.
    + constructor; [intros [] | now constructor].
    + constructor; [|assumption].
      intros [E|Hin]; [congruence | contradiction].
Qed.

Lemma split_pieces_app sep p :
  ~ In sep p ->
  forall s, split_pieces sep (p ++ sep :: s)
            = (p, fst (split_pieces sep s) :: snd (split_pieces sep s)).
Proof.
  induction p as [|c p IH]; intros Hp s; simpl.
  - destruct (split_pieces sep s). now rewrite N.eqb_refl.
  - rewrite IH by (intros Hin; apply Hp; now right).
    destruct (N.eqb_spec c sep) as [->|_]; [|reflexivity].
    exfalso. apply Hp. now left.
Qed.

Lemma split_pieces_single sep p :
  ~ In sep p -> split_pieces sep p = (p, []).
Proof.
  induction p as [|c p IH]; intros Hp; simpl; [reflexivity|].
  rewrite IH by (intros Hin; apply Hp; now right).
  destruct (N.eqb_spec c sep) as [->|_]; [|reflexivity].
  exfalso. apply Hp. now left.
Qed.

(** Splitting what was joined gives the pieces back. *)
Lemma split_join sep pieces :
  pieces <> [] ->
  Forall (fun p => ~ In sep p) pieces ->
  split sep (join sep pieces) = pieces.
Proof.
  intros Hne H. unfold split.
  induction H as [|p ps Hp Hps IH]; [congruence|].
  destruct ps as [|q qs].
  - simpl. now rewrite split_pieces_single.
  - change (join sep (p :: q :: qs)) with (p ++ sep :: join sep (q :: qs)).
    rewrite split_pieces_app by assumption.
    specialize (IH ltac:(discriminate)).
    destruct (split_pieces sep (join sep (q :: qs))) as [a b].
    simpl. now rewrite IH.
Qed.

Lemma existsb_strip_scan f s :
  forall inside,
    existsb f s = false -> existsb f (strip_scan inside s) = false.
Proof.
  induction s as [|c s IH]; intros inside H; [reflexivity|].
  simpl in H. apply orb_false_iff in H as [Hc Hs]. simpl.
  destruct inside; [now apply IH|].
  destruct ((c =? ch_lt) && existsb (N.eqb ch_gt) s); [now apply IH|].
  simpl. rewrite Hc. now apply IH.
Qed.

Lemma strip_scan_no_tag s :
  forall inside, has_tag (strip_scan inside s) = false.
Proof.
  induction s as [|c s IH]; intros inside; [reflexivity|].
  simpl. destruct inside; [apply IH|].
  destruct ((c =? ch_lt) && existsb (N.eqb ch_gt) s) eqn:E; [apply IH|].
  simpl. rewrite IH, orb_false_r.
  apply andb_false_iff in E as [E|E]; [now rewrite E|].
  rewrite (existsb_strip_scan _ _ false E). apply andb_false_r.
Qed.

Lemma strip_scan_fixed s : has_tag s = false -> strip_scan false s = s.
Proof.
  induction s as [|c s IH]; [reflexivity|].
  simpl. intros H. apply orb_false_iff in H as [H1 H2].
  rewrite H1. f_equal. now apply IH.
Qed.

Lemma strip_scan_sublist s :
  forall inside, sublist (strip_scan inside s) s.
Proof.
  induction s as [|c s IH]; intros inside; simpl; [constructor|].
  destruct inside; [now constructor|].
  destruct ((c =? ch_lt) && existsb (N.eqb ch_gt) s); now constructor.
Qed.

End BuiltinFacts.

(** ** Decimal numbers: [String(n)] and [parseInt] *)

Module NumberFacts.

Lemma js_String a s : js (String a s) = N_of_ascii a :: js s.
Proof. reflexivity. Qed.

(** The digits of a printed number are read back one by one. *)
Lemma digits_value_uint d :
  forall acc rest,
    leading_digits rest = [] ->
    fold_left (fun a x => 10 * a + x)
      (leading_digits (js (DecimalString.NilEmpty.string_of_uint d) ++ rest))
      acc
    = N.of_nat (Nat.of_uint_acc d (N.to_nat acc)).
Proof.
  induction d; intros acc rest Hrest;
    cbn [DecimalString.NilEmpty.string_of_uint Nat.of_uint_acc];
    try (rewrite js_String; cbn [app leading_digits];
         match goal with
         | [ |- context [is_digit ?c] ] =>
             change (is_digit c) with true; cbn iota
         end;
         cbn [fold_left]; rewrite IHd by assumption;
         rewrite Nat.tail_mul_spec; do 2 f_equal;
         match goal with
         | [ |- context [N_of_ascii ?a - 48] ] =>
             let v := eval vm_compute in (N_of_ascii a - 48) in
             change (N_of_ascii a - 48) with v
         end;
         lia).
  simpl. rewrite Hrest. simpl. lia.
Qed.

Lemma leading_digits_uint_nil d rest :
  leading_digits (js (DecimalString.NilEmpty.string_of_uint d) ++ rest) = [] ->
  d = Decimal.Nil.
Proof. destruct d; [reflexivity | discriminate ..]. Qed.

Lemma to_uint_nonnil n : Nat.to_uint n <> Decimal.Nil.
Proof.
  rewrite <- (DecimalNat.Unsigned.of_to n) at 1.
  rewrite DecimalNat.Unsigned.to_of. apply DecimalFacts.unorm_nonnil.
Qed.

(** A printed number starts with a digit. *)
Lemma Number_toString_head n :
  exists c s, Number_toString n = c :: s /\ is_digit c = true.
Proof.
  unfold Number_toString.
  pose proof (to_uint_nonnil n) as H.
  destruct (Nat.to_uint n); [congruence | ..];
    cbn [DecimalString.NilEmpty.string_of_uint]; rewrite js_String;
    eexists _, _; split; reflexivity.
Qed.

Lemma is_digit_not_space c : is_digit c = true -> is_space c = false.
Proof.
  unfold is_digit, is_space. intros H.
  apply andb_true_iff in H as [H1 H2]. apply N.leb_le in H1, H2.
  repeat (apply orb_false_iff; split);
    first [ apply N.eqb_neq; lia
          | apply andb_false_iff;
            first [left; apply N.leb_gt; lia | right; apply N.leb_gt; lia] ].
Qed.

Lemma is_digit_not_sign c :
  is_digit c = true -> (c =? ch_minus) = false /\ (c =? ch_plus) = false.
Proof.
  unfold is_digit, ch_minus, ch_plus. intros H.
  apply andb_true_iff in H as [H1 H2]. apply N.leb_le in H1, H2.
  split; apply N.eqb_neq; lia.
Qed.

Lemma trimStart_app_spaces w s :
  Forall (fun c => is_space c = true) w ->
  trimStart (w ++ s) = trimStart s.
Proof.
  induction 1 as [|c w Hc _ IH]; [reflexivity|]. simpl. now rewrite Hc.
Qed.

(** Reading a printed number back, with white space before it and any
    text that does not start with a digit after it. *)
Lemma parseInt10_Number_toString n w rest :
  Forall (fun c => is_space c = true) w ->
  leading_digits rest = [] ->
  parseInt10 (w ++ Number_toString n ++ rest) = Some (Z.of_nat n).
Proof.
  intros Hw Hrest. unfold parseInt10.
  rewrite (trimStart_app_spaces w _ Hw).
  destruct (Number_toString_head n) as (c & s & E & Hc).
  pose proof (is_digit_not_space c Hc) as Hsp.
  destruct (is_digit_not_sign c Hc) as [Hm Hp].
  assert (trimStart (Number_toString n ++ rest) = Number_toString n ++ rest)
    as -> by (rewrite E; simpl; now rewrite Hsp).
  assert (match Number_toString n ++ rest with
          | c0 :: rest0 =>
              if c0 =? ch_minus then (true, rest0)
              else if c0 =? ch_plus then (false, rest0)
              else (false, Number_toString n ++ rest)
          | [] => (false, Number_toString n ++ rest)
          end = (false, Number_toString n ++ rest)) as ->
      by (rewrite E; simpl; now rewrite Hm, Hp).
  pose proof (digits_value_uint (Nat.to_uint n) 0 rest Hrest) as Hv.
  fold (digits_value
          (leading_digits
             (js (DecimalString.NilEmpty.string_of_uint (Nat.to_uint n))
                ++ rest))) in Hv.
  fold (Number_toString n) in Hv.
  change (N.to_nat 0) with 0%nat in Hv.
  fold (Nat.of_uint (Nat.to_uint n)) in Hv.
  rewrite DecimalNat.Unsigned.of_to in Hv.
  destruct (leading_digits (Number_toString n ++ rest)) as [|d ds] eqn:El.
  - exfalso. apply (to_uint_nonnil n).
    now apply (leading_digits_uint_nil _ rest).
  - rewrite Hv. f_equal. lia.
Qed.

Lemma or_default_set c s d : or_default (Some (c :: s)) d = c :: s.
Proof. reflexivity. Qed.

(** Text that starts with neither white space, a sign nor a digit is
    not a number. *)
Lemma parseInt10_NaN c s :
  is_space c = false -> is_digit c = false ->
  c <> ch_minus -> c <> ch_plus ->
  parseInt10 (c :: s) = None.
Proof.
  intros Hs Hd Hm Hp. unfold parseInt10. simpl. rewrite Hs.
  apply N.eqb_neq in Hm, Hp. rewrite Hm, Hp. simpl. now rewrite Hd.
Qed.

End NumberFacts.

(** ** More on the send loop and [sendEmail] *)

Module DispatchFacts2.
Import EmailService Delivery DispatchFacts Vocabulary.

(** The loop does not look at what is in the trace before it, as long
    as no message was sent there. *)
Lemma send_loop_prefix_independent server s h c rs :
  forall tr0 tr,
    sent_messages tr0 = [] ->
    send_loop server s h c rs (tr0 ++ tr)
    = (tr0 ++ fst (send_loop server s h c rs tr),
       snd (send_loop server s h c rs tr)).
Proof.
  induction rs as [|r rs IH]; intros tr0 tr H0.
  - reflexivity.
  - cbn [send_loop]. rewrite !bind_log, !bind_sendAsync.
    rewrite <- (app_assoc tr0).
    rewrite (sent_messages_app tr0), H0, app_nil_l.
    destruct (server (sent_messages (tr ++ [Log info (js "Sending email")]))
                (personalizedMessage s h c r)).
    + simpl. now rewrite <- app_assoc.
    + rewrite !bind_log, <- !(app_assoc tr0). now apply IH.
Qed.

Lemma sendEmail_prefix_independent env server params tr0 :
  sent_messages tr0 = [] ->
  sendEmail env server params tr0
  = (tr0 ++ fst (run (sendEmail env server params)),
     snd (run (sendEmail env server params))).
Proof.
  intros H0. unfold run.
  destruct (validRecipients (to params)) as [|r0 rs0] eqn:Ev.
  - rewrite !(sendEmail_no_valid _ _ _ _ Ev). simpl.
    now rewrite <- app_assoc.
  - assert (validRecipients (to params) <> []) as Hv
        by (rewrite Ev; discriminate).
    rewrite !(sendEmail_some_valid _ _ _ _ Hv), app_nil_l.
    rewrite <- (app_assoc tr0).
    rewrite (send_loop_prefix_independent _ _ _ _ _ tr0 _ H0).
    destruct (send_loop _ _ _ _ _ _) as [tr [[]|e]]; simpl;
      [reflexivity | now rewrite <- app_assoc].
Qed.

(** The loop only adds to the trace: entries at level [info] and sends. *)
Lemma send_loop_events server s h c rs :
  forall tr,
  exists post,
    fst (send_loop server s h c rs tr) = tr ++ post
    /\ Forall (fun e => match e with
                        | Log info _ | SendAsync _ => True
                        | _ => False
                        end) post.
Proof.
  induction rs as [|r rs IH]; intros tr.
  - exists []. simpl. rewrite app_nil_r. split; [reflexivity | constructor].
  - cbn [send_loop]. rewrite bind_log, bind_sendAsync.
    destruct (server _ _).
    + exists [Log info (js "Sending email");
              SendAsync (personalizedMessage s h c r)].
      simpl. rewrite <- app_assoc. split; [reflexivity|].
      repeat constructor.
    + rewrite bind_log.
      destruct (IH (((tr ++ [Log info (js "Sending email")])
                       ++ [SendAsync (personalizedMessage s h c r)])
                      ++ [Log info (js "Email sent successfully")]))
        as (post & E & Hp).
      exists ([Log info (js "Sending email");
               SendAsync (personalizedMessage s h c r);
               Log info (js "Email sent successfully")] ++ post).
      rewrite E, <- !app_assoc. split; [reflexivity|].
      repeat constructor. exact Hp.
Qed.

(** The shape of every run of [sendEmail]. *)
Lemma sendEmail_run_shape env server params :
  (validRecipients (to params) = []
   /\ run (sendEmail env server params)
      = (prologue (to params)
           ++ [Log error (js "Email send failed - no valid recipients")],
         Throw (Error (js "No valid recipients provided"))))
  \/ (validRecipients (to params) <> []
      /\ exists post res,
           Forall (fun e => match e with
                            | Log info _ | SendAsync _ => True
                            | _ => False
                            end) post
           /\ run (sendEmail env server params)
              = ((prologue (to params)
                    ++ [NewSMTPClient (clientOptions env (smtp params))])
                   ++ post
                   ++ match res with
                      | Return _ => []
                      | Throw _ => [Log error (js "Email send failed")]
                      end,
                 res)).
Proof.
  destruct (validRecipients (to params)) as [|r0 rs0] eqn:Ev.
  - left. split; [reflexivity|]. unfold run.
    now rewrite (sendEmail_no_valid _ _ _ _ Ev).
  - right. split; [discriminate|].
    assert (validRecipients (to params) <> []) as Hv
        by (rewrite Ev; discriminate).
    unfold run. rewrite (sendEmail_some_valid _ _ _ _ Hv), app_nil_l.
    destruct (send_loop_events server (subject params) (html params)
                (smtp params) (validRecipients (to params))
                (prologue (to params)
                   ++ [NewSMTPClient (clientOptions env (smtp params))]))
      as (post & E & Hp).
    destruct (send_loop _ _ _ _ _ _) as [tr res]. cbn [fst] in E. subst tr.
    exists post, res. split; [exact Hp|].
    destruct res as [[]|e]; [now rewrite app_nil_r | now rewrite <- app_assoc].
Qed.

Lemma prologue_events to :
  Forall (fun e => match e with
                   | Log info _ | Log warn _ => True
                   | _ => False
                   end) (prologue to).
Proof.
  unfold prologue. destruct (0 <? _)%nat; repeat constructor.
Qed.

Lemma accepted_all_not_rejected server hist msgs k e :
  accepted server hist msgs (length msgs) ->
  rejected_at server hist msgs k e -> False.
Proof.
  intros Ha (m & Hm & Hr).
  assert (k < length msgs)%nat as Hk by (eapply lookup_lt_Some; eauto).
  rewrite (Ha k m Hk Hm) in Hr. discriminate.
Qed.

(** [sendEmail] returns exactly when there is a valid recipient and the
    server accepts every message of the batch. *)
Lemma sendEmail_returns_iff_run env server params :
  snd (run (sendEmail env server params)) = Return tt
  <-> validRecipients (to params) <> []
      /\ accepted server [] (batch_messages params)
           (length (batch_messages params)).
Proof.
  unfold run.
  destruct (validRecipients (to params)) as [|r0 rs0] eqn:Ev.
  - rewrite (sendEmail_no_valid _ _ _ _ Ev). simpl.
    split; [discriminate | intros [H _]; congruence].
  - assert (validRecipients (to params) <> []) as Hv
        by (rewrite Ev; discriminate).
    rewrite (sendEmail_some_valid _ _ _ _ Hv), app_nil_l.
    destruct (send_loop_outcome server (subject params) (html params)
                (smtp params) (validRecipients (to params))
                (prologue (to params)
                   ++ [NewSMTPClient (clientOptions env (smtp params))]))
      as (tr & res & El & _ & Hout).
    rewrite El.
    rewrite sent_messages_app, sent_messages_prologue in Hout.
    simpl in Hout. fold (batch_messages params) in Hout.
    assert (length (validRecipients (to params))
            = length (batch_messages params)) as Hlen
        by (unfold batch_messages; now rewrite length_map).
    rewrite Hlen in Hout.
    destruct Hout as [(-> & _ & Ha) | (k & e & -> & _ & _ & Hr)]; simpl.
    + split; [intros _; split; [discriminate | exact Ha] | reflexivity].
    + split; [discriminate|]. intros [_ Ha]. exfalso.
      eapply accepted_all_not_rejected; eauto.
Qed.

Lemma batch_messages_to params :
  map msg_to (batch_messages params)
  = map email (validRecipients (to params)).
Proof.
  unfold batch_messages. rewrite map_map. reflexivity.
Qed.

(** What was sent is an initial part of the batch. *)
Lemma sendEmail_sent_prefix env server params :
  exists n,
    sent_messages (fst (run (sendEmail env server params)))
    = take n (batch_messages params).
Proof.
  unfold run.
  destruct (validRecipients (to params)) as [|r0 rs0] eqn:Ev.
  - rewrite (sendEmail_no_valid _ _ _ _ Ev). exists 0%nat. cbn [fst].
    rewrite !sent_messages_app, sent_messages_prologue. reflexivity.
  - assert (validRecipients (to params) <> []) as Hv
        by (rewrite Ev; discriminate).
    rewrite (sendEmail_some_valid _ _ _ _ Hv), app_nil_l.
    destruct (send_loop_outcome server (subject params) (html params)
                (smtp params) (validRecipients (to params))
                (prologue (to params)
                   ++ [NewSMTPClient (clientOptions env (smtp params))]))
      as (tr & res & El & _ & Hout).
    rewrite El.
    rewrite sent_messages_app, sent_messages_prologue in Hout.
    simpl in Hout. fold (batch_messages params) in Hout.
    destruct Hout as [(-> & Hs & _) | (k & e & -> & Hs & _)]; simpl.
    + exists (length (batch_messages params)). now rewrite firstn_all.
    + exists (S k). rewrite sent_messages_app, Hs. simpl.
      now rewrite app_nil_r.
Qed.

End DispatchFacts2.

(** ** Properties of the service beyond the claims *)

Module ServiceProperties.
Import EmailService Delivery DispatchFacts DispatchFacts2 Vocabulary.
Import BuiltinFacts Template.

Lemma In_take {A} (x : A) n l : In x (take n l) -> In x l.
Proof.
  revert n. induction l as [|y l IH]; intros [|n]; simpl; try tauto.
  intros [H|H]; [now left | right; eauto].
Qed.

(** X1: [stripTags] leaves no complete tag ([<] with a [>] after it) in
    its result, so applying it again changes nothing; it only deletes
    code units, and it returns its argument unchanged exactly when the
    argument has no complete tag. *)
Theorem stripTags_removes_tags (s : jsstring) :
  has_tag (stripTags s) = false
  /\ stripTags (stripTags s) = stripTags s
  /\ sublist (stripTags s) s
  /\ (stripTags s = s <-> has_tag s = false).
Proof.
  unfold stripTags.
  split; [apply strip_scan_no_tag|].
  split; [apply strip_scan_fixed, strip_scan_no_tag|].
  split; [apply strip_scan_sublist|].
  split; [|apply strip_scan_fixed].
  intros E. rewrite <- E. apply strip_scan_no_tag.
Qed.

(** X2: whatever the outcome, the messages handed to the server are
    addressed, in request order, to an initial part of the valid
    recipients: each one goes to the address of a recipient of the request
    that passes [validateRecipient]. *)
Theorem sendEmail_sends_only_to_valid env server (params : EmailParams) :
  map msg_to (sent_messages (fst (run (sendEmail env server params))))
    `prefix_of` map email (validRecipients (to params))
  /\ Forall (fun m => exists r,
                 In r (to params) /\ validateRecipient r = true
                 /\ msg_to m = email r)
       (sent_messages (fst (run (sendEmail env server params)))).
Proof.
  destruct (sendEmail_sent_prefix env server params) as (n & ->).
  split.
  - rewrite <- batch_messages_to, <- firstn_map.
    exists (drop n (map msg_to (batch_messages params))).
    symmetry. apply take_drop.
  - apply List.Forall_forall. intros m Hm. apply In_take in Hm.
    unfold batch_messages in Hm. apply in_map_iff in Hm as (r & <- & Hr).
    apply filter_In in Hr as [Hin Hv]. exists r. auto.
Qed.

(** X3: every message handed to the server is the one built for a
    recipient [r] of the request that passes [validateRecipient]: it goes
    to the address of [r], with the From header [fromName <fromEmail>] of
    the request and the subject template rendered for [r]; its one
    attachment is the body template rendered for [r], marked as
    alternative; its plain text is that rendered body with the tags
    stripped, and has no complete tag left. *)
Theorem sent_message_shape env server (params : EmailParams) :
  Forall (fun m =>
            exists r,
              In r (to params) /\ validateRecipient r = true
              /\ msg_to m = email r
              /\ msg_from m
                 = fromName (smtp params) ++ js " <"
                   ++ fromEmail (smtp params) ++ js ">"
              /\ msg_subject m = replaceVariables (subject params) r
              /\ msg_attachment m
                 = [ {| data := replaceVariables (html params) r;
                        alternative := true |} ]
              /\ msg_text m = stripTags (replaceVariables (html params) r)
              /\ has_tag (msg_text m) = false)
    (sent_messages (fst (run (sendEmail env server params)))).
Proof.
  destruct (sendEmail_sent_prefix env server params) as (n & ->).
  apply List.Forall_forall. intros m Hm. apply In_take in Hm.
  unfold batch_messages in Hm. apply in_map_iff in Hm as (r & <- & Hr).
  apply filter_In in Hr as [Hin Hv]. exists r.
  split; [exact Hin|]. split; [exact Hv|].
  split; [reflexivity|]. split; [reflexivity|]. split; [reflexivity|].
  split; [reflexivity|]. split; [reflexivity|].
  apply strip_scan_no_tag.
Qed.

Lemma loop_events_no_client post :
  Forall (fun e => match e with
                   | Log info _ | SendAsync _ => True
                   | _ => False
                   end) post ->
  clients_created post = [].
Proof.
  induction 1 as [|e post He _ IH]; [reflexivity|].
  destruct e as [[] t|o|m]; try contradiction; exact IH.
Qed.

(** X4: a run of [sendEmail] constructs no client when the request has
    no valid recipient, and otherwise exactly one, with a timeout of
    30000 ms and [ssl] as the request's [secure]; nothing is sent before
    the client is constructed. *)
Theorem one_client_per_batch env server (params : EmailParams) :
  (validRecipients (to params) = []
   /\ clients_created (fst (run (sendEmail env server params))) = []
   /\ sent_messages (fst (run (sendEmail env server params))) = [])
  \/ (validRecipients (to params) <> []
      /\ opt_timeout (clientOptions env (smtp params)) = 30000
      /\ opt_ssl (clientOptions env (smtp params)) = secure (smtp params)
      /\ exists pre post,
           fst (run (sendEmail env server params))
           = pre ++ NewSMTPClient (clientOptions env (smtp params)) :: post
           /\ clients_created pre = []
           /\ sent_messages pre = []
           /\ clients_created post = []).
Proof.
  destruct (sendEmail_run_shape env server params)
    as [[Ev ->] | (Hv & post & res & Hp & ->)].
  - left. cbn [fst].
    rewrite clients_created_app, sent_messages_app,
      clients_created_prologue, sent_messages_prologue.
    auto.
  - right. split; [assumption|]. split; [reflexivity|].
    split; [reflexivity|].
    exists (prologue (to params)),
      (post ++ match res with
               | Return _ => []
               | Throw _ => [Log error (js "Email send failed")]
               end).
    cbn [fst]. rewrite <- app_assoc. split; [reflexivity|].
    rewrite clients_created_prologue, sent_messages_prologue.
    split; [reflexivity|]. split; [reflexivity|].
    rewrite clients_created_app, (loop_events_no_client post Hp).
    now destruct res.
Qed.

(** X5: [sendEmail] throws only after logging at level [error] as its
    last action, and a run that returns has no log entry at that level. *)
Theorem sendEmail_logs_error_iff_throws env server (params : EmailParams) :
  (forall e, snd (run (sendEmail env server params)) = Throw e ->
             ends_with_error_log (fst (run (sendEmail env server params))))
  /\ (snd (run (sendEmail env server params)) = Return tt ->
      no_error_log (fst (run (sendEmail env server params)))).
Proof.
  destruct (sendEmail_run_shape env server params)
    as [[Ev ->] | (Hv & post & res & Hp & ->)]; cbn [fst snd].
  - split; [|discriminate]. intros e _. eexists _, _. reflexivity.
  - split.
    + intros e ->. rewrite app_assoc. eexists _, _. reflexivity.
    + intros -> text Hin. rewrite app_nil_r in Hin.
      apply in_app_or in Hin as [Hin|Hin];
        [apply in_app_or in Hin as [Hin|Hin]|].
      * pose proof (prologue_events (to params)) as H.
        rewrite List.Forall_forall in H. exact (H _ Hin).
      * destruct Hin as [Hin|[]]; discriminate.
      * rewrite List.Forall_forall in Hp. exact (Hp _ Hin).
Qed.

Lemma rendered_no_bracket r segs :
  Forall segment_ok segs ->
  (forall k, ~ In ch_lbracket (token_value r k)) ->
  ~ In ch_lbracket (rendered r segs).
Proof.
  intros Hok Hv. induction Hok as [|g segs Hg _ IH]; [intros []|].
  destruct g as [s|k sp]; simpl; intros Hin;
    apply in_app_or in Hin as [Hin|Hin]; try contradiction.
  exact (Hv k Hin).
Qed.

(** X6: for a template made of text without an opening bracket and of
    tokens, and field values without a dollar sign or an opening bracket,
    the rendered text has no opening bracket, hence no token, and
    rendering it again changes nothing. *)
Theorem render_idempotent (r : EmailRecipient) (segs : list segment) :
  Forall segment_ok segs ->
  (forall k, ~ In ch_dollar (token_value r k)
             /\ ~ In ch_lbracket (token_value r k)) ->
  ~ In ch_lbracket (replaceVariables (template_of segs) r)
  /\ replaceVariables (replaceVariables (template_of segs) r) r
     = replaceVariables (template_of segs) r.
Proof.
  intros Hok Hv.
  rewrite (TemplateFacts.render_segments r segs Hok Hv).
  assert (~ In ch_lbracket (rendered r segs)) as Hnb
      by (apply rendered_no_bracket; [assumption | intros k; apply Hv]).
  split; [exact Hnb|].
  pose proof (TemplateFacts.render_segments r [Text (rendered r segs)]) as H.
  simpl in H. rewrite app_nil_r in H. apply H; [|exact Hv].
  repeat constructor. exact Hnb.
Qed.

Lemma render_idempotent_witness :
  replaceVariables
    (replaceVariables (js "Hello [First_Name] at [company]") Examples.ann)
    Examples.ann
  = replaceVariables (js "Hello [First_Name] at [company]") Examples.ann.
Proof.
  apply (render_idempotent Examples.ann
           [Text (js "Hello "); Token first_name (js "[First_Name]");
            Text (js " at "); Token company_token (js "[company]")]).
  - repeat first [apply List.Forall_nil | apply List.Forall_cons];
      cbn [segment_ok];
      first [apply RendererClaims.not_In_char; reflexivity | reflexivity].
  - intros k; destruct k; split;
      apply RendererClaims.not_In_char; reflexivity.
Defined.

(** X7: an address accepted by [validateRecipient] has at least five
    code units and neither starts nor ends with [@]. *)
Theorem valid_address_bounds (r : EmailRecipient) :
  validateRecipient r = true ->
  (5 <= length (email r))%nat
  /\ (forall c s, email r = c :: s -> c <> ch_at)
  /\ (forall c s, email r = s ++ [c] -> c <> ch_at).
Proof.
  unfold validateRecipient.
  rewrite RegExpFacts.test_anchored_Lang, ValidatorFacts.emailRegex_Lang.
  intros (L & D & T & E & [HL FL] & [HD FD] & [HT FT]).
  rewrite E. split; [|split].
  - rewrite length_app. simpl. rewrite length_app. simpl.
    destruct L, D, T; simpl; try congruence; lia.
  - intros c s Ec. destruct L as [|l L]; [congruence|].
    injection Ec as <- _. apply Forall_cons in FL as [Hl _].
    now apply ValidatorFacts.not_space_at_iff in Hl.
  - intros c s Ec.
    destruct (exists_last HT) as (T' & t & ->).
    apply Forall_app in FT as [_ Ft]. apply Forall_cons in Ft as [Ht _].
    apply ValidatorFacts.not_space_at_iff in Ht as [_ Ht].
    replace (L ++ ch_at :: D ++ ch_dot :: T' ++ [t])
      with ((L ++ ch_at :: D ++ ch_dot :: T') ++ [t]) in Ec
      by (rewrite <- !app_assoc; simpl; rewrite <- !app_assoc; reflexivity).
    apply app_inj_tail in Ec as [_ <-]. exact Ht.
Qed.

Lemma valid_address_bounds_witness :
  (5 <= length (js "a@b.c"))%nat.
Proof.
  apply (valid_address_bounds
           {| email := js "a@b.c"; firstName := None; lastName := None;
              company := None |}).
  reflexivity.
Defined.

End ServiceProperties.

(** ** Properties of the HTTP handler beyond the claims *)

Module HandlerProperties.
Import EmailService Routes Delivery DispatchFacts DispatchFacts2 HandlerFacts.
Import BuiltinFacts.

(** The two ways a run of the handler can go. *)
Lemma sendEmailHandler_cases env server req_body :
  (exists msg,
      validateEmailRequest req_body
        [Log info (js "Received email send request")]
      = ([Log info (js "Received email send request")], Throw (Error msg))
      /\ isValidationError msg = true
      /\ run (sendEmailHandler env server req_body)
         = errorResponse env (Error msg)
             [Log info (js "Received email send request")])
  \/ (exists b,
        validateEmailRequest req_body
          [Log info (js "Received email send request")]
        = ([Log info (js "Received email send request")], Return b)
        /\ run (sendEmailHandler env server req_body)
           = match run (sendEmail env server (emailParams b)) with
             | (tr, Return _) =>
                 ([Log info (js "Received email send request")]
                    ++ tr ++ [Log info (js "Email send request completed")],
                  Return (successResponse b))
             | (tr, Throw e) =>
                 errorResponse env e
                   ([Log info (js "Received email send request")] ++ tr)
             end).
Proof.
  rewrite sendEmailHandler_run.
  destruct (validateEmailRequest_outcome req_body
              [Log info (js "Received email send request")])
    as [(b & Ev & _) | (msg & Ev & Hmsg)]; rewrite Ev.
  - right. exists b. split; [reflexivity|].
    rewrite (sendEmail_prefix_independent env server (emailParams b)
               [Log info (js "Received email send request")] eq_refl).
    destruct (run (sendEmail env server (emailParams b))) as [tr [[]|e]];
      cbn [fst snd]; [now rewrite <- app_assoc | reflexivity].
  - left. exists msg. auto.
Qed.

Lemma errorResponse_fields env e tr tr' resp :
  errorResponse env e tr = (tr', Return resp) ->
  success resp = false
  /\ (status resp = 400 \/ status resp = 500)
  /\ (status resp = 400 ->
      exists msg, e = Error msg /\ isValidationError msg = true
                  /\ message resp = msg)
  /\ (status resp = 500 ->
      message resp = js "Failed to send email"
      \/ message resp = js "An unexpected error occurred")
  /\ (error_detail resp <> None ->
      env !! "NODE_ENV"%string = Some (js "development")).
Proof.
  destruct e as [msg|]; cbn [errorResponse]; rewrite bind_log;
    unfold ret; intros H; injection H as _ <-; cbn.
  - destruct (isValidationError msg) eqn:Ev.
    + repeat split; auto; try discriminate.
      * intros _. exists msg. auto.
      * destruct (bool_decide _) eqn:Eb; [|congruence].
        intros _. now apply bool_decide_eq_true in Eb.
    + repeat split; auto; try discriminate.
      destruct (bool_decide _) eqn:Eb; [|congruence].
      intros _. now apply bool_decide_eq_true in Eb.
  - repeat split; auto; try discriminate. congruence.
Qed.

Lemma Qle_bool_false_iff p : Qle_bool p 0 = false <-> (0 < p)%Q.
Proof.
  split.
  - intros H. apply Qnot_le_lt. intros Hle.
    apply Qle_bool_iff in Hle. congruence.
  - intros H. destruct (Qle_bool p 0) eqn:E; [|reflexivity].
    apply Qle_bool_iff in E. exfalso. exact (Qlt_not_le _ _ H E).
Qed.

(** X8: [validateEmailRequest] accepts a body, seen at its declared type
    as [x], exactly when: [recipients] is a non-empty array; [subject] and
    [body] are strings with a code unit that is not white space; and
    [smtpConfig] is an object with all seven fields, its [port] a number
    above zero.  It never touches the trace. *)
Theorem validateEmailRequest_accepts_iff (b : RawBody) (x : EmailRequestBody)
    (tr : list Event) :
  validateEmailRequest b tr = (tr, Return x)
  <-> raw_recipients b = Some (recipients x)
      /\ recipients x <> []
      /\ raw_subject b = Some (subject x)
      /\ ~ Forall (fun c => is_space c = true) (subject x)
      /\ raw_body b = Some (body x)
      /\ ~ Forall (fun c => is_space c = true) (body x)
      /\ raw_smtpConfig b
         = Some {| raw_host := Some (host (smtpConfig x));
                   raw_port := Some (Some (port (smtpConfig x)));
                   raw_username := Some (username (smtpConfig x));
                   raw_password := Some (password (smtpConfig x));
                   raw_secure := Some (secure (smtpConfig x));
                   raw_fromEmail := Some (fromEmail (smtpConfig x));
                   raw_fromName := Some (fromName (smtpConfig x)) |}
      /\ (0 < port (smtpConfig x))%Q.
Proof.
  split.
  - unfold validateEmailRequest, throw, ret.
    destruct (raw_recipients b) as [[|r rs]|]; try discriminate.
    destruct (raw_subject b) as [subj|]; [|discriminate].
    destruct (is_blank subj) eqn:Hs; [discriminate|].
    destruct (raw_body b) as [emailBody|]; [|discriminate].
    destruct (is_blank emailBody) eqn:Hb; [discriminate|].
    destruct (raw_smtpConfig b) as [c|]; [|discriminate].
    destruct (missing_field c); [discriminate|].
    destruct c as [[h|] [[p|]|] [u|] [pw|] [sec|] [fe|] [fn|]];
      try discriminate.
    destruct (Qle_bool p 0) eqn:Hp; [discriminate|].
    intros H. injection H as <-. cbn.
    repeat split; try discriminate.
    + intros Hall. apply is_blank_iff in Hall. congruence.
    + intros Hall. apply is_blank_iff in Hall. congruence.
    + now apply Qle_bool_false_iff.
  - intros (Hr & Hne & Hs & Hsb & Hb & Hbb & Hc & Hp).
    unfold validateEmailRequest, throw, ret.
    rewrite Hr, Hs, Hb, Hc.
    destruct (recipients x) as [|r rs] eqn:Er; [congruence|].
    destruct (is_blank (subject x)) eqn:E1;
      [apply is_blank_iff in E1; contradiction|].
    destruct (is_blank (body x)) eqn:E2;
      [apply is_blank_iff in E2; contradiction|].
    cbn. apply Qle_bool_false_iff in Hp. rewrite Hp.
    destruct x as [rsx sx bx [h p u pw sec fe fn]]. cbn in *.
    now rewrite Er.
Qed.

(** X9: when [validateEmailRequest] throws, the handler answers with
    status 400, [success] false and the thrown message as [message]; it
    logs the failure and does nothing else, so no client is constructed
    and nothing is sent. *)
Theorem invalid_request_answered_400 env server (req_body : RawBody) e :
  validateEmailRequest req_body [Log info (js "Received email send request")]
  = ([Log info (js "Received email send request")], Throw e) ->
  exists msg resp,
    e = Error msg
    /\ run (sendEmailHandler env server req_body)
       = ([Log info (js "Received email send request");
           Log error (js "Email send request failed")],
          Return resp)
    /\ status resp = 400
    /\ success resp = false
    /\ message resp = msg.
Proof.
  intros He.
  destruct (sendEmailHandler_cases env server req_body)
    as [(msg & Ev & Hmsg & ->) | (b & Ev & _)]; [|congruence].
  rewrite Ev in He. injection He as <-.
  exists msg. cbn [errorResponse]. rewrite bind_log. unfold ret.
  eexists. split; [reflexivity|]. split; [reflexivity|].
  cbn. rewrite Hmsg. auto.
Qed.

Lemma invalid_request_answered_400_witness :
  exists msg resp,
    Error (js "Subject is required") = Error msg
    /\ run (sendEmailHandler Examples.env_production Examples.accept_all
              {| raw_recipients := Some [Examples.ann];
                 raw_subject := Some (js "   ");
                 raw_body := Some (js "Hello");
                 raw_smtpConfig := Some Examples.raw_smtp |})
       = ([Log info (js "Received email send request");
           Log error (js "Email send request failed")],
          Return resp)
    /\ status resp = 400
    /\ success resp = false
    /\ message resp = msg.
Proof.
  apply (invalid_request_answered_400 Examples.env_production
           Examples.accept_all).
  reflexivity.
Defined.

(** X10: the handler always answers, never throws; the status is 200,
    400 or 500, and [success] is true exactly with status 200. *)
Theorem sendEmailHandler_always_answers env server (req_body : RawBody) :
  exists tr resp,
    run (sendEmailHandler env server req_body) = (tr, Return resp)
    /\ (status resp = 200 \/ status resp = 400 \/ status resp = 500)
    /\ (success resp = true <-> status resp = 200).
Proof.
  destruct (sendEmailHandler_cases env server req_body)
    as [(msg & _ & _ & ->) | (b & _ & ->)].
  - destruct (errorResponse_run env (Error msg)
                [Log info (js "Received email send request")])
      as (resp & E & _).
    destruct (errorResponse_fields _ _ _ _ _ E) as (Hs & Hst & _).
    eexists _, resp. split; [exact E|]. rewrite Hs.
    split; [tauto|]. split; [discriminate|].
    destruct Hst as [-> | ->]; discriminate.
  - destruct (run (sendEmail env server (emailParams b))) as [tr [[]|e]].
    + eexists _, _. split; [reflexivity|]. cbn. tauto.
    + destruct (errorResponse_run env e
                  ([Log info (js "Received email send request")] ++ tr))
        as (resp & E & _).
      destruct (errorResponse_fields _ _ _ _ _ E) as (Hs & Hst & _).
      eexists _, resp. split; [exact E|]. rewrite Hs.
      split; [tauto|]. split; [discriminate|].
      destruct Hst as [-> | ->]; discriminate.
Qed.

(** X11: what an answer of the handler discloses.  The [error] field is
    present only when [NODE_ENV] is [development].  With status 500 the
    message is one of the two fixed texts; with status 400 it is a text
    that the handler classifies as a validation error. *)
Theorem sendEmailHandler_disclosure env server (req_body : RawBody) tr resp :
  run (sendEmailHandler env server req_body) = (tr, Return resp) ->
  (error_detail resp <> None ->
   env !! "NODE_ENV"%string = Some (js "development"))
  /\ (status resp = 500 ->
      message resp = js "Failed to send email"
      \/ message resp = js "An unexpected error occurred")
  /\ (status resp = 400 -> isValidationError (message resp) = true).
Proof.
  intros Hrun.
  assert ((exists b, resp = successResponse b)
          \/ exists e tr0, errorResponse env e tr0 = (tr, Return resp))
    as [[b ->] | (e & tr0 & E)].
  { destruct (sendEmailHandler_cases env server req_body)
      as [(msg & _ & _ & Hr) | (b & _ & Hr)]; rewrite Hr in Hrun.
    - right. eauto.
    - destruct (run (sendEmail env server (emailParams b))) as [tr2 [[]|e]].
      + left. exists b. now injection Hrun as _ <-.
      + right. eauto. }
  - cbn. repeat split; try discriminate. congruence.
  - destruct (errorResponse_fields _ _ _ _ _ E) as (_ & _ & H4 & H5 & Hd).
    repeat split; auto.
    intros H. destruct (H4 H) as (msg & _ & Hv & ->). exact Hv.
Qed.

Lemma sendEmailHandler_disclosure_witness :
  exists tr resp,
    run (sendEmailHandler Examples.env_production
           (Examples.reject_mailbox "a@x.com" Examples.mailbox_unavailable)
           Examples.mixed_request) = (tr, Return resp)
    /\ status resp = 500
    /\ error_detail resp = None
    /\ (message resp = js "Failed to send email"
        \/ message resp = js "An unexpected error occurred").
Proof.
  destruct (run (sendEmailHandler Examples.env_production
                   (Examples.reject_mailbox "a@x.com"
                      Examples.mailbox_unavailable)
                   Examples.mixed_request)) as [tr res] eqn:E.
  vm_compute in E. injection E as <- <-.
  eexists _, _. split; [reflexivity|]. split; [reflexivity|].
  split; [reflexivity|].
  refine (proj1 (proj2 (sendEmailHandler_disclosure Examples.env_production
            (Examples.reject_mailbox "a@x.com" Examples.mailbox_unavailable)
            Examples.mixed_request _ _ _)) _);
    [vm_compute; reflexivity | reflexivity].
Defined.

(** X12: [sendEmail] returns exactly when at least one recipient passes
    [validateRecipient] and the server accepts every message of the
    batch; and the handler answers with status 200 only when the body has
    passed [validateEmailRequest] and that is the case. *)
Theorem success_requires_every_message_accepted env server :
  (forall params : EmailParams,
      snd (run (sendEmail env server params)) = Return tt
      <-> validRecipients (to params) <> []
          /\ accepted server [] (batch_messages params)
               (length (batch_messages params)))
  /\ (forall (req_body : RawBody) tr resp,
        run (sendEmailHandler env server req_body) = (tr, Return resp) ->
        status resp = 200 ->
        exists b,
          validateEmailRequest req_body
            [Log info (js "Received email send request")]
          = ([Log info (js "Received email send request")], Return b)
          /\ validRecipients (recipients b) <> []
          /\ accepted server [] (batch_messages (emailParams b))
               (length (batch_messages (emailParams b)))).
Proof.
  split; [intros params; apply sendEmail_returns_iff_run|].
  intros req_body tr resp Hrun Hst.
  destruct (sendEmailHandler_cases env server req_body)
    as [(msg & Ev & _ & Hr) | (b & Ev & Hr)]; rewrite Hr in Hrun.
  - destruct (errorResponse_fields _ _ _ _ _ Hrun) as (_ & [E|E] & _);
      rewrite E in Hst; discriminate.
  - pose proof (sendEmail_returns_iff_run env server (emailParams b)) as Hiff.
    destruct (run (sendEmail env server (emailParams b))) as [tr2 [[]|e]];
      cbn [snd] in Hiff.
    + exists b. split; [exact Ev|]. now apply Hiff.
    + destruct (errorResponse_fields _ _ _ _ _ Hrun) as (_ & [E|E] & _);
        rewrite E in Hst; discriminate.
Qed.

Lemma success_requires_every_message_accepted_witness :
  exists tr resp,
    run (sendEmailHandler Examples.env_production Examples.accept_all
           Examples.mixed_request) = (tr, Return resp)
    /\ status resp = 200
    /\ exists b,
         validateEmailRequest Examples.mixed_request
           [Log info (js "Received email send request")]
         = ([Log info (js "Received email send request")], Return b)
         /\ validRecipients (recipients b) <> []
         /\ accepted Examples.accept_all [] (batch_messages (emailParams b))
              (length (batch_messages (emailParams b))).
Proof.
  destruct (run (sendEmailHandler Examples.env_production Examples.accept_all
                   Examples.mixed_request)) as [tr res] eqn:E.
  vm_compute in E. injection E as <- <-.
  eexists _, _. split; [reflexivity|]. split; [reflexivity|].
  refine (proj2 (success_requires_every_message_accepted
                   Examples.env_production Examples.accept_all)
            Examples.mixed_request _ _ _ _);
    [vm_compute; reflexivity | reflexivity].
Defined.

End HandlerProperties.

(** ** Properties of the server set-up *)

Module ServerProperties.
Import Server BuiltinFacts NumberFacts Vocabulary.

Lemma originCallback_run env c o :
  run (originCallback env (Some (c :: o)))
  = ([Log info (js "CORS Request")],
     if bool_decide (c :: o ∈ allowedOrigins env) then Return tt
     else Throw (Error (js "Origin " ++ (c :: o)
                          ++ js " not allowed by CORS"))).
Proof.
  unfold run, originCallback. rewrite DispatchFacts.bind_log.
  now destruct (bool_decide _).
Qed.

Lemma In_trim c s : In c (trim s) -> In c s.
Proof.
  intros H. destruct (trim_decompose s) as (w1 & w2 & E & _).
  rewrite E. apply in_or_app. right. apply in_or_app. now left.
Qed.

(** X13: when the configured value (or the default, if [CORS_ORIGIN] is
    unset or empty) is a comma-separated list of entries, a request with
    a non-empty Origin header is let through exactly when its origin is
    one of the entries with the white space around it removed; any other
    origin is refused with the error "Origin ... not allowed by CORS". *)
Theorem cors_allows_listed_origins env (entries : list jsstring)
    (origin : jsstring) :
  corsOrigin env = join ch_comma entries ->
  entries <> [] ->
  Forall (fun p => ~ In ch_comma p) entries ->
  origin <> [] ->
  (In origin (map trim entries) ->
   run (originCallback env (Some origin))
   = ([Log info (js "CORS Request")], Return tt))
  /\ (~ In origin (map trim entries) ->
      run (originCallback env (Some origin))
      = ([Log info (js "CORS Request")],
         Throw (Error (js "Origin " ++ origin
                         ++ js " not allowed by CORS")))).
Proof.
  intros Hc Hne Hfree Ho.
  destruct origin as [|c o]; [congruence|].
  rewrite originCallback_run. unfold allowedOrigins.
  rewrite Hc, (split_join _ _ Hne Hfree).
  destruct (bool_decide_reflect (c :: o ∈ map trim entries)) as [H|H];
    rewrite list_elem_of_In in H; split; intros H'; try reflexivity;
    contradiction.
Qed.

Lemma cors_allows_listed_origins_witness :
  run (originCallback
         (<["CORS_ORIGIN" := js "https://app.x.com, https://admin.x.com"]> ∅)
         (Some (js "https://admin.x.com")))
  = ([Log info (js "CORS Request")], Return tt).
Proof.
  apply (cors_allows_listed_origins
           (<["CORS_ORIGIN" := js "https://app.x.com, https://admin.x.com"]> ∅)
           [js "https://app.x.com"; js " https://admin.x.com"]
           (js "https://admin.x.com")).
  - reflexivity.
  - discriminate.
  - repeat first [apply List.Forall_nil | apply List.Forall_cons];
      apply RendererClaims.not_In_char; reflexivity.
  - discriminate.
  - right. left. reflexivity.
Defined.

(** X14: whatever the configuration, a request without an Origin header
    (or with an empty one) is let through, and an origin that has a comma
    in it, or white space at its start or end, is refused. *)
Theorem cors_origin_edge_cases env :
  (forall origin,
      origin = None \/ origin = Some [] ->
      run (originCallback env origin)
      = ([Log info (js "CORS Request")], Return tt))
  /\ (forall origin,
        origin <> [] ->
        In ch_comma origin \/ ~ trimmed origin ->
        run (originCallback env (Some origin))
        = ([Log info (js "CORS Request")],
           Throw (Error (js "Origin " ++ origin
                           ++ js " not allowed by CORS")))).
Proof.
  split.
  - intros origin [-> | ->]; reflexivity.
  - intros [|c o] Hne Hbad; [congruence|].
    rewrite originCallback_run.
    destruct (bool_decide_reflect (c :: o ∈ allowedOrigins env)) as [H|H];
      [|reflexivity].
    exfalso. unfold allowedOrigins in H.
    apply list_elem_of_In, in_map_iff in H as (p & Ep & Hp).
    destruct Hbad as [Hcomma | Hnt].
    + rewrite <- Ep in Hcomma. apply In_trim in Hcomma.
      unfold split in Hp.
      destruct (split_pieces ch_comma (corsOrigin env)) as [a b] eqn:Es.
      pose proof (split_pieces_free _ _ _ _ Es) as Hfree.
      rewrite List.Forall_forall in Hfree. exact (Hfree p Hp Hcomma).
    + apply Hnt. rewrite <- Ep. apply trim_trimmed.
Qed.

Lemma cors_origin_edge_cases_witness :
  run (originCallback Examples.env_example (Some (js "http://localhost:5173 ")))
  = ([Log info (js "CORS Request")],
     Throw (Error (js "Origin " ++ js "http://localhost:5173 "
                     ++ js " not allowed by CORS"))).
Proof.
  apply (cors_origin_edge_cases Examples.env_example).
  - discriminate.
  - right. intros [_ H].
    specialize (H 32 (js "http://localhost:5173") eq_refl). discriminate.
Defined.

Lemma or_default_nonempty s d : s <> [] -> or_default (Some s) d = s.
Proof. destruct s; [congruence | reflexivity]. Qed.

Lemma leading_digits_nil rest :
  (forall c rest', rest = c :: rest' -> is_digit c = false) ->
  leading_digits rest = [].
Proof.
  destruct rest as [|c rest']; [reflexivity|]. intros H. simpl.
  now rewrite (H c rest' eq_refl).
Qed.

Lemma number_text_nonempty w n rest : w ++ Number_toString n ++ rest <> [].
Proof.
  destruct (Number_toString_head n) as (c & s & -> & _).
  destruct w; discriminate.
Qed.

(** X15: when a rate-limit variable is set to the decimal text of a
    number below 2^53, with white space before it and any text that does
    not start with a digit after it (a unit, a comment), the limit is that
    number. *)
Theorem rateLimit_reads_number env (n : nat) (w rest : jsstring) :
  (Z.of_nat n < 2 ^ 53)%Z ->
  Forall (fun c => is_space c = true) w ->
  (forall c rest', rest = c :: rest' -> is_digit c = false) ->
  (env !! "RATE_LIMIT_WINDOW_MS"%string
   = Some (w ++ Number_toString n ++ rest) ->
   rateLimitWindowMs env = Some (Z.of_nat n))
  /\ (env !! "RATE_LIMIT_MAX_REQUESTS"%string
      = Some (w ++ Number_toString n ++ rest) ->
      rateLimitMaxRequests env = Some (Z.of_nat n)).
Proof.
  intros _ Hw Hrest. apply leading_digits_nil in Hrest.
  split; intros E.
  - unfold rateLimitWindowMs.
    rewrite E, or_default_nonempty by apply number_text_nonempty.
    now apply parseInt10_Number_toString.
  - unfold rateLimitMaxRequests.
    rewrite E, or_default_nonempty by apply number_text_nonempty.
    now apply parseInt10_Number_toString.
Qed.

Lemma rateLimit_reads_number_witness :
  rateLimitMaxRequests
    (<["RATE_LIMIT_MAX_REQUESTS" := js " 250  # per window"]> ∅)
  = Some 250%Z.
Proof.
  apply (rateLimit_reads_number
           (<["RATE_LIMIT_MAX_REQUESTS" := js " 250  # per window"]> ∅)
           250 (js " ") (js "  # per window")).
  - reflexivity.
  - repeat constructor.
  - intros c rest' E. injection E as <- _. reflexivity.
  - reflexivity.
Defined.

(** X16: a rate-limit variable that is unset or empty gives the default
    (900000 ms, 100 requests); one whose text starts with something that
    is neither white space, a sign nor a digit gives NaN. *)
Theorem rateLimit_defaults_and_NaN env :
  (env !! "RATE_LIMIT_WINDOW_MS"%string = None
   \/ env !! "RATE_LIMIT_WINDOW_MS"%string = Some [] ->
   rateLimitWindowMs env = Some 900000%Z)
  /\ (env !! "RATE_LIMIT_MAX_REQUESTS"%string = None
      \/ env !! "RATE_LIMIT_MAX_REQUESTS"%string = Some [] ->
      rateLimitMaxRequests env = Some 100%Z)
  /\ (forall c s,
        is_space c = false -> is_digit c = false ->
        c <> ch_minus -> c <> ch_plus ->
        (env !! "RATE_LIMIT_WINDOW_MS"%string = Some (c :: s) ->
         rateLimitWindowMs env = None)
        /\ (env !! "RATE_LIMIT_MAX_REQUESTS"%string = Some (c :: s) ->
            rateLimitMaxRequests env = None)).
Proof.
  unfold rateLimitWindowMs, rateLimitMaxRequests.
  split; [intros [-> | ->]; reflexivity|].
  split; [intros [-> | ->]; reflexivity|].
  intros c s Hs Hd Hm Hp.
  split; intros ->; rewrite or_default_set; now apply parseInt10_NaN.
Qed.

Lemma rateLimit_defaults_and_NaN_witness :
  rateLimitWindowMs Examples.env_unset = Some 900000%Z
  /\ rateLimitMaxRequests
       (<["RATE_LIMIT_MAX_REQUESTS" := js "unlimited"]> ∅) = None.
Proof.
  destruct (rateLimit_defaults_and_NaN Examples.env_unset) as (H1 & _ & _).
  destruct (rateLimit_defaults_and_NaN
              (<["RATE_LIMIT_MAX_REQUESTS" := js "unlimited"]> ∅))
    as (_ & _ & H3).
  split.
  - apply H1. left. reflexivity.
  - apply (H3 117 (js "nlimited")); try reflexivity; discriminate.
Defined.

End ServerProperties.
